(** * The graph-table engine of [reftools/lib/graphtab.py]

    A shallow embedding of the classes [Node], [Edge], [Path] and [Graph]
    and of the module-level table [rules_dict], followed by the properties
    of [select_edge], [traverse], [recurse], [process] and [get_obsmodes].

    Conventions of the embedding:
    - a Python 2 [str] is a [string] (a sequence of 8-bit characters);
    - [dict] is [gmap], [set] is [gset]; iteration over either follows an
      order chosen by the interpreter, which the class [World] supplies and
      about which only "it is a permutation of the contents" is known; for
      a set the order may depend on the list the set was built from;
    - [numpy] arrays of strings are lists of the strings read back from
      them, which have lost their trailing NUL characters;
    - objects of class [Node] live in a store indexed by references, so that
      an edge's destination is a reference and graphs may be cyclic;
    - a call either returns ([Ok]) or raises ([Raise]); [print] statements
      write to the console and are left out. *)

From Stdlib Require Import ZArith Ascii String List Lia.
From stdpp Require Import gmap strings list.
From Equations Require Import Equations.

Local Open Scope Z_scope.

(** ** Python string primitives *)

Module Py.

(** [c in s] for a one-character [c]. *)
Fixpoint has_char (c : ascii) (s : string) : bool :=
  match s with
  | EmptyString => false
  | String a s' => if decide (a = c) then true else has_char c s'
  end.

(** [s.startswith(p)]. *)
Fixpoint startswith (p s : string) : bool :=
  match p, s with
  | EmptyString, _ => true
  | String a p', String b s' => if decide (a = b) then startswith p' s' else false
  | String _ _, EmptyString => false
  end.

(** [s.endswith(suf)]. *)
Fixpoint endswith (suf s : string) : bool :=
  bool_decide (s = suf) ||
  match s with
  | EmptyString => false
  | String _ s' => endswith suf s'
  end.

(** [sub in s] for strings. *)
Fixpoint contains (sub s : string) : bool :=
  startswith sub s ||
  match s with
  | EmptyString => false
  | String _ s' => contains sub s'
  end.

(** [s.split(sep)] for a one-character separator: the fields between the
    occurrences of [sep]; never the empty list. *)
Fixpoint split (sep : ascii) (s : string) : list string :=
  match s with
  | EmptyString => [EmptyString]
  | String c s' =>
      if decide (c = sep) then EmptyString :: split sep s'
      else match split sep s' with
           | h :: t => String c h :: t
           | [] => [String c EmptyString]
           end
  end.

(** [sep.join(l)]. *)
Fixpoint join (sep : string) (l : list string) : string :=
  match l with
  | [] => EmptyString
  | [x] => x
  | x :: l' => x +:+ sep +:+ join sep l'
  end.

(** [s.replace(old, new)] for a non-empty [old]: the occurrences of [old]
    are found from left to right and do not overlap.  [skip] counts the
    characters of the current occurrence that are still to be dropped. *)
Fixpoint replace_from (old new s : string) (skip : nat) : string :=
  match s with
  | EmptyString => EmptyString
  | String c s' =>
      match skip with
      | S k => replace_from old new s' k
      | O =>
          if startswith old s
          then new +:+ replace_from old new s' (Nat.pred (String.length old))
          else String c (replace_from old new s' O)
      end
  end.

(** For an empty [old], Python inserts [new] before every character and at
    the end. *)
Fixpoint intersperse (new s : string) : string :=
  match s with
  | EmptyString => new
  | String c s' => new +:+ String c (intersperse new s')
  end.

Definition replace (s old new : string) : string :=
  match old with
  | EmptyString => intersperse new s
  | String _ _ => replace_from old new s O
  end.

(** [s.upper()] on a byte string: the letters a-z are mapped to A-Z. *)
Definition upper_char (c : ascii) : ascii :=
  let n := N_of_ascii c in
  if ((97 <=? n) && (n <=? 122))%N then ascii_of_N (n - 32) else c.

Fixpoint upper (s : string) : string :=
  match s with
  | EmptyString => EmptyString
  | String c s' => String (upper_char c) (upper s')
  end.

(** [unicode(s)] decodes with the default codec, which accepts the bytes
    below 128 only. *)
Fixpoint is_ascii (s : string) : bool :=
  match s with
  | EmptyString => true
  | String c s' => (N_of_ascii c <? 128)%N && is_ascii s'
  end.

End Py.

(** ** Exceptions and outcomes *)

Inductive exn : Type :=
  | ValueError (msg : string)
  | KeyError (key : option string)
  | AttributeError (attr : string)
  | IOError (filename : option string)
  | UnicodeDecodeError
  | IndexError
  | ObsmodeError (msg : string)
  | TypeError (msg : string)
  | RecursionLimit.

Inductive outcome (A : Type) : Type :=
  | Ok (a : A)
  | Raise (e : exn).
Arguments Ok {A} a.
Arguments Raise {A} e.

Global Instance outcome_ret : MRet outcome := @Ok.
Global Instance outcome_bind : MBind outcome := fun A B k m =>
  match m with
  | Ok a => k a
  | Raise e => Raise e
  end.

(** [for x in l: acc = body(acc, x)], stopping at the first exception. *)
Fixpoint for_each {A S} (body : S -> A -> outcome S) (l : list A) (acc : S) : outcome S :=
  match l with
  | [] => Ok acc
  | x :: l' => acc' ← body acc x; for_each body l' acc'
  end.

Definition unicode (s : string) : outcome string :=
  if Py.is_ascii s then Ok s else Raise UnicodeDecodeError.

(** ** numpy arrays of strings *)

Module Np.

(** A string as it is read back from an array of fixed-width strings: the
    trailing NUL characters are gone. *)
Fixpoint rstrip_nul (s : string) : string :=
  match s with
  | EmptyString => EmptyString
  | String c s' =>
      match rstrip_nul s' with
      | EmptyString => if decide (c = Ascii.zero) then EmptyString else String c EmptyString
      | r => String c r
      end
  end.

(** The arrays that [process] meets: an array of strings, given by the
    strings read back from it, or the empty array of floats that
    [numpy.asarray([])] is. *)
Inductive ndarray : Type :=
  | StrArray (items : list string)
  | FloatArray.

(** [numpy.array(l, dtype=numpy.str)]. *)
Definition array_str (l : list string) : ndarray := StrArray (rstrip_nul <$> l).

(** [numpy.asarray(l)] for a list of strings. *)
Definition asarray (l : list string) : ndarray :=
  match l with
  | [] => FloatArray
  | _ :: _ => StrArray (rstrip_nul <$> l)
  end.

(** [a.tolist()]. *)
Definition tolist (a : ndarray) : list string :=
  match a with
  | StrArray l => l
  | FloatArray => []
  end.

(** [numpy.char.replace(a, old, new)]: [str.replace] on every element; the
    results are collected with [numpy.asarray(result.tolist())]. *)
Definition char_replace (a : ndarray) (old new : string) : outcome ndarray :=
  match a with
  | StrArray l => Ok (asarray ((fun s => Py.replace s old new) <$> l))
  | FloatArray => Raise (TypeError "string operation on non-string array")
  end.

(** [numpy.char.add(p, a)] for a string [p]: [p] is read back from an
    array of its own, and the sums make an array of strings. *)
Definition char_add (p : string) (a : ndarray) : outcome ndarray :=
  Ok (StrArray ((fun s => rstrip_nul (rstrip_nul p +:+ s)) <$> tolist a)).

End Np.

(** ** Edge and Node *)

(** References to [Node] objects. *)
Definition ref := positive.

Record Edge : Type := mkEdge {
  kwd : string;
  optical : option string;
  thermal : option string;
  filename : option string;
  pvar : option string;
  destination : option ref
}.

(** [Edge('default', [None, None, None, None], None)]. *)
Definition sentinel : Edge := mkEdge "default" None None None None None.

Record Node : Type := mkNode {
  name : string;
  edges : gmap string Edge;
  edgeset : gset string
}.

(** [Node(name)]. *)
Definition Node_init (nm : string) : Node := mkNode nm ∅ ∅.

Definition add_edge (n : Node) (e : Edge) : Node :=
  mkNode (name n) (<[kwd e := e]> (edges n)) ({[kwd e]} ∪ edgeset n).

(** The nodes that [Node(name)] followed by calls of [add_edge] can build. *)
Inductive Node_built : Node -> Prop :=
  | built_init nm : Node_built (Node_init nm)
  | built_add n e : Node_built n -> Node_built (add_edge n e).

Definition ambiguous : exn :=
  ValueError "Ambiguous...Too many edges match. Check for problems with graph table.".

(** [self.edges[k]]. *)
Definition edges_getitem (n : Node) (k : string) : outcome Edge :=
  match edges n !! k with
  | Some e => Ok e
  | None => Raise (KeyError (Some k))
  end.

Definition select_edge (n : Node) (kwdset : gset string) (partial : bool) (count : Z)
  : outcome Edge :=
  let matched := edgeset n ∩ kwdset in
  if decide (1 < size matched)%nat then Raise ambiguous
  else if decide (size matched = 1%nat) then
    match elements matched with
    | k :: _ => edges_getitem n k
    | [] => Raise (KeyError None)
    end
  else
    match edges n !! "default" with
    | Some d =>
        if negb partial || (partial && (count <? Z.of_nat (size kwdset)))
        then Ok d
        else Ok sentinel
    | None => Ok sentinel
    end.

(** ** The interpreter and the outside world *)

(** What the code reads from its environment: the store of [Node] objects
    (every reference denotes an object, and none is changed while
    [traverse] or [get_obsmodes] runs),
    the order in which [set(l)] is iterated for a list [l] (in CPython it
    depends on the order of insertion when hashes collide) and the order of
    the values of a [dict], the
    column names [pyfits.open(f)[1].data.names[1:]] of a component file,
    which texts [float] accepts, and how many nested calls the interpreter
    allows before it raises its recursion error. *)
Class World : Type := {
  heap : ref -> Node;
  set_iter : list string -> list string;
  set_iter_perm : forall l, set_iter l ≡ₚ elements (list_to_set l : gset string);
  dict_values : gmap string Edge -> list Edge;
  dict_values_perm : forall m, dict_values m ≡ₚ (map_to_list m).*2;
  fits_cnames : option string -> outcome (list string);
  float_ok : string -> bool;
  recursion_limit : nat
}.

(** ** Path *)

(** A value of [Path._params]: the text after [#] as [traverse] stores it,
    or the list of floats that [Path.append] puts in its place; a float is
    kept as the text it was read from. *)
Inductive param_value : Type :=
  | PStr (v : string)
  | PFloats (vs : list string).

(** [offset_writes] is a ghost field: the values assigned to [offset], in
    order.  The source has no such attribute. *)
Record Path : Type := mkPath {
  path_name : string;
  edgelist : list Edge;
  params : gmap string param_value;
  offset : option string;
  offset_writes : list string
}.

(** [Path(obsmode, params=params)]. *)
Definition Path_init (obsmode : string) (ps : gmap string param_value) : Path :=
  mkPath obsmode [] ps None [].

(** [self.offset = v]. *)
Definition set_offset (p : Path) (v : string) : Path :=
  mkPath (path_name p) (edgelist p) (params p) (Some v) (offset_writes p ++ [v]).

(** [float(s)]. *)
Definition float `{World} (s : string) : outcome string :=
  if float_ok s then Ok s
  else Raise (ValueError ("could not convert string to float: " +:+ s)).

(** [pname.split('#')[-1]]. *)
Definition last_field (pname : string) : string :=
  List.last (Py.split "#" pname) EmptyString.

Definition Path_append `{World} (p : Path) (edge : Edge) : outcome Path :=
  let p1 := mkPath (path_name p) (edgelist p ++ [edge]) (params p) (offset p)
                   (offset_writes p) in
  match pvar edge with
  | Some pv =>
      if bool_decide (pv ∈ dom (params p1)) && bool_decide (pv ∉ [""; " "]) then
        cnames ← fits_cnames (filename edge);
        parvalues ← for_each
          (fun acc pname =>
             if Py.contains pv pname
             then v ← float (last_field pname); Ok (acc ++ [v])
             else Ok acc)
          cnames [];
        Ok (mkPath (path_name p1) (edgelist p1) (<[pv := PFloats parvalues]> (params p1))
                   (offset p1) (offset_writes p1))
      else Ok p1
  | None => Ok p1
  end.

Definition compnames (p : Path) : list string :=
  omap optical (edgelist p).

(** ** Graph *)

Record Graph : Type := mkGraph {
  nodes : gmap string ref;
  top : option ref
}.

(** [len(self)]. *)
Definition len (g : Graph) : Z := Z.of_nat (size (nodes g)).

Definition add_node `{World} (g : Graph) (l : ref) : Graph :=
  mkGraph (<[name (heap l) := l]> (nodes g)) (top g).

(** [Graph(nodes)]: [top] stays unset when no list of nodes is given, and
    [nodes[0]] raises for an empty list. *)
Definition Graph_init `{World} (ns : option (list ref)) : outcome Graph :=
  match ns with
  | Some l =>
      let g := fold_left add_node l (mkGraph ∅ None) in
      match l with
      | t :: _ => Ok (mkGraph (nodes g) (Some t))
      | [] => Raise IndexError
      end
  | None => Ok (mkGraph ∅ None)
  end.

(** [self[nodename]]; the offset of a path may be [None]. *)
Definition Graph_getitem (g : Graph) (nodename : option string) : outcome ref :=
  match nodename with
  | Some nm =>
      match nodes g !! nm with
      | Some l => Ok l
      | None => Raise (KeyError (Some nm))
      end
  | None => Raise (KeyError None)
  end.

(** ** traverse *)

(** One round of the loop over [plist]. *)
Definition param_step (st : gset string * gmap string param_value) (p : string)
  : outcome (gset string * gmap string param_value) :=
  let '(kwdset, ps) := st in
  if decide (p ∈ kwdset) then
    match Py.split "#" p with
    | [k; v] =>
        let k := k +:+ "#" in
        Ok ({[k]} ∪ (kwdset ∖ {[p]}), <[Py.upper k := PStr v]> ps)
    | [] | [_] => Raise (ValueError "need more than 1 value to unpack")
    | _ => Raise (ValueError "too many values to unpack")
    end
  else Raise (KeyError (Some p)).

(** Lines 186-196: the keyword set and the parameters of an obsmode. *)
Definition keywords `{World} (obsmode : string)
  : outcome (gset string * gmap string param_value) :=
  let kwdset : gset string := list_to_set (Py.split "," obsmode) in
  let plist := filter (fun k => Py.has_char "#" k = true)
                      (set_iter (Py.split "," obsmode)) in
  for_each param_step plist (kwdset, ∅).

(** The state of the loop over [plist] once the tokens [done] of the token
    set [T] have been handled: the keyword set holds the tokens still to be
    handled or without [#], and [base#] for every handled [base#value]; the
    parameters hold an entry for every handled token, each taken from one. *)
Definition params_inv (T : gset string) (done : list string)
    (st : gset string * gmap string param_value) : Prop :=
  (forall k, k ∈ st.1 <->
     (k ∈ T /\ k ∉ done) \/
     (exists p b v, p ∈ done /\ Py.split "#" p = [b; v] /\ k = b +:+ "#")) /\
  (forall K x, st.2 !! K = Some x ->
     exists p b v, p ∈ done /\ Py.split "#" p = [b; v] /\
                   K = Py.upper (b +:+ "#") /\ x = PStr v) /\
  (forall p b v, p ∈ done -> Py.split "#" p = [b; v] ->
     is_Some (st.2 !! Py.upper (b +:+ "#"))).

(** The variables of the loop. *)
Record walk_state : Type := mkWalk {
  innode : option ref;
  count : Z;
  kwdcount : Z;
  edge_list : list string;
  ans : Path
}.

Inductive step_result : Type :=
  | Break
  | Next (st : walk_state).

(** Line 224: the edge accounts for a keyword of the obsmode that no
    earlier edge of the walk bore. *)
Definition counts (kwdset : gset string) (edge_list : list string) (edge : Edge) : bool :=
  bool_decide (kwd edge ∈ kwdset) && bool_decide (kwd edge ∉ edge_list)
  && bool_decide (kwd edge ≠ "default").

(** The body of the [while] loop at the node [l]. *)
Definition walk_step `{World} (kwdset : gset string) (partial : bool)
    (st : walk_state) (l : ref) : outcome step_result :=
  match select_edge (heap l) kwdset partial (kwdcount st) with
  | Raise (KeyError _) => Ok Break
  | Raise e => Raise e
  | Ok edge =>
      ans1 ← Path_append (ans st) edge;
      let hit := counts kwdset (edge_list st) edge in
      let kwdcount' := if hit then kwdcount st + 1 else kwdcount st in
      let ans2 :=
        if hit then
          match destination edge with
          | Some d => set_offset ans1 (name (heap d))
          | None => ans1
          end
        else ans1 in
      Ok (Next (mkWalk (destination edge) (count st + 1) kwdcount'
                       (edge_list st ++ [kwd edge]) ans2))
  end.

Definition inspect {A} (a : A) : {b : A | a = b} := exist _ a eq_refl.

(** The [while] loop; it is entered with [count <= len(self)], and every
    round adds one to [count]. *)
Equations? walk `{World} (g : Graph) (kwdset : gset string) (partial : bool)
    (st : walk_state) : outcome Path
    by wf (Z.to_nat (len g + 1 - count st)) lt :=
  walk g kwdset partial st with inspect (innode st) := {
    | exist _ None _ => Ok (ans st)
    | exist _ (Some l) _ with inspect (count st <=? len g) := {
        | exist _ false _ => Ok (ans st)
        | exist _ true Hc with inspect (walk_step kwdset partial st l) := {
            | exist _ (Raise e) _ => Raise e
            | exist _ (Ok Break) _ => Ok (ans st)
            | exist _ (Ok (Next st')) Hs => walk g kwdset partial st' } } }.
Proof.
  apply Z.leb_le in Hc. unfold walk_step in Hs.
  destruct (select_edge _ _ _ _) as [edge|[]]; try discriminate.
  destruct (Path_append _ _); simpl in Hs; try discriminate.
  injection Hs as <-. simpl. lia.
Qed.

(** [self.traverse(obsmode, verbose, partial)]; [verbose] only selects what
    is printed. *)
Definition traverse `{World} (g : Graph) (obsmode : string) (partial : bool)
  : outcome Path :=
  '(kwdset, ps) ← keywords obsmode;
  let ans0 := Path_init obsmode ps in
  t ← match top g with
      | Some t => Ok t
      | None => Raise (AttributeError "top")
      end;
  l ← Graph_getitem g (Some (name (heap t)));
  walk g kwdset partial (mkWalk (Some l) 0 0 [] ans0).

(** One round of the loop of [traverse], as a relation between the loop
    variables before and after. *)
Definition round `{World} (g : Graph) (kwdset : gset string) (partial : bool)
    (st st' : walk_state) : Prop :=
  exists l, innode st = Some l /\ count st <= len g /\
            walk_step kwdset partial st l = Ok (Next st').

(** The destination name that an edge contributes to [offset], if any,
    when [seen] holds the keywords of the edges taken before it. *)
Definition offset_of `{World} (kwdset : gset string) (seen : list string) (e : Edge)
  : list string :=
  if counts kwdset seen e then
    match destination e with
    | Some d => [name (heap d)]
    | None => []
    end
  else [].

(** The values that a walk along the edges [es] assigns to [offset], read
    off the edges alone. *)
Fixpoint offset_assignments `{World} (kwdset : gset string) (seen : list string)
    (es : list Edge) : list string :=
  match es with
  | [] => []
  | e :: es' => offset_of kwdset seen e ++ offset_assignments kwdset (seen ++ [kwd e]) es'
  end.

(** What the loop of [traverse] maintains: [edge_list] and [count] follow
    the path, [count] stays within the bound, the assignments to [offset]
    are those of [offset_assignments], and [kwdcount] counts distinct
    keywords of the keyword set. *)
Record walk_inv `{World} (g : Graph) (kwdset : gset string) (st : walk_state) : Prop := {
  inv_edge_list : edge_list st = kwd <$> edgelist (ans st);
  inv_count : count st = Z.of_nat (length (edgelist (ans st)));
  inv_bound : count st <= len g + 1;
  inv_writes : offset_writes (ans st) = offset_assignments kwdset [] (edgelist (ans st));
  inv_offset : offset (ans st) = last (offset_writes (ans st));
  inv_hits : exists hits : list string,
      NoDup hits /\ hits ⊆ edge_list st /\ (forall k, k ∈ hits -> k ∈ kwdset) /\
      kwdcount st = Z.of_nat (length hits) /\
      (length (offset_writes (ans st)) <= length hits)%nat
}.

(** ** The rule table *)

Record rule : Type := mkRule {
  junk : list string;
  exclude : list string
}.

(** The entries of [rules_dict], in the order of the source. *)
Definition rules_list : list (string * rule) :=
  [
    ("default", mkRule [""; "None"; "default"] ["aper#"]);
    ("acs,hrc", mkRule [] []);
    ("acs,hrc,f555w", mkRule [] []);
    ("acs,sbc", mkRule [] []);
    ("acs,wfc1", mkRule ["wfc1"] ["wfc2"]);
    ("acs,wfc2", mkRule ["wfc2"] ["wfc1"]);
    ("wfc3,uvis1", mkRule ["uvis1"] ["uvis2"]);
    ("wfc3,uvis2", mkRule ["uvis2"] ["uvis1"]);
    ("wfc3,ir", mkRule [] []);
    ("nicmos,1", mkRule [] []);
    ("nicmos,2", mkRule [] []);
    ("nicmos,3", mkRule [] []);
    ("cos,boa", mkRule [] []);
    ("cos,psa", mkRule [] []);
    ("wfpc2,*", mkRule [] []);
    ("stis,*", mkRule [] [])
  ].

Definition rules_dict : gmap string rule := list_to_map rules_list.

(** [rules[key]]. *)
Definition rules_getitem (rules : gmap string rule) (key : string) : outcome rule :=
  match rules !! key with
  | Some r => Ok r
  | None => Raise (KeyError (Some key))
  end.

(** ** recurse, process and get_obsmodes *)

(** [self.attr] for an attribute that [Graph.__init__] does not set:
    [None] stands for the attribute that no call has set yet. *)
Definition getattr {A} (attr : string) (v : option A) : outcome A :=
  match v with
  | Some a => Ok a
  | None => Raise (AttributeError attr)
  end.

(** [iter(node)] of line 360 calls [Node.__iter__], one more nested call;
    [depth] is the number of nested calls that the interpreter still
    allows. *)
Definition Node_iter `{World} (depth : nat) (l : ref) : outcome (list Edge) :=
  match depth with
  | O => Raise RecursionLimit
  | S _ => Ok (dict_values (edges (heap l)))
  end.

(** [self.recurse(node, so_far)]; [obsmodes] is the list [self.obsmodes]
    that the calls extend, [junk] and [excl] are the attributes
    [self.obsrules_junk] and [self.obsrules_excl], which only
    [get_obsmodes] sets, and [depth] is the number of nested calls that
    the interpreter still allows. *)
Fixpoint recurse `{World} (junk excl : option (list string)) (depth : nat)
    (node : option ref) (so_far : option string) (obsmodes : list string)
  : outcome (list string) :=
  match depth with
  | O => Raise RecursionLimit
  | S d =>
      let so_far := default EmptyString so_far in
      match node with
      | None => Ok obsmodes
      | Some l =>
          es ← Node_iter d l;
          for_each
            (fun obsmodes edge =>
               obsrules_excl ← getattr "obsrules_excl" excl;
               if bool_decide (kwd edge ∈ obsrules_excl) then Ok obsmodes
               else
                 let further := so_far +:+ "," +:+ kwd edge in
                 obsrules_junk ← getattr "obsrules_junk" junk;
                 let obsmodes :=
                   if bool_decide (kwd edge ∈ obsrules_junk) then obsmodes
                   else obsmodes ++ [further] in
                 recurse junk excl d (destination edge) (Some further) obsmodes)
            es obsmodes
      end
  end.

(** The pair [(j, r)] that [process] computes for a junk keyword. *)
Definition junk_pattern (jk : string) : string * string :=
  if decide (jk = EmptyString) then (",,", ",") else (jk +:+ ",", EmptyString).

(** The loop [for junk in self.obsrules_junk] of [process], on the
    array made of [self.obsmodes]. *)
Definition remove_junk (junk : list string) (obsmodes : list string) : outcome Np.ndarray :=
  for_each
    (fun a jk => let '(j, r) := junk_pattern jk in Np.char_replace a j r)
    junk (Np.array_str obsmodes).

Definition process (junk : list string) (prefix : option string) (obsmodes : list string)
  : outcome (list string) :=
  a ← remove_junk junk obsmodes;
  match prefix with
  | Some p => a' ← Np.char_add p a; Ok (p :: Np.tolist a')
  | None => Ok (Np.tolist a)
  end.

(** Lines 258-263: the key under which the rules of [obsmode] are found. *)
Definition obsrules_key (rules : gmap string rule) (obsmode : string) : outcome string :=
  if bool_decide (obsmode ∈ dom rules) then Ok obsmode
  else if bool_decide (obsmode +:+ ",*" ∈ dom rules) then Ok (obsmode +:+ ",*")
  else u ← unicode obsmode;
       Raise (ObsmodeError ("Unsupported obsmode string: " +:+ u)).

(** [rules['default'][field] + rules[key][field]]. *)
Definition merged (field : rule -> list string) (rules : gmap string rule) (key : string)
  : outcome (list string) :=
  d ← rules_getitem rules "default";
  r ← rules_getitem rules key;
  Ok (field d ++ field r).

(** Lines 271-274: no keyword of the obsmode may be excluded. *)
Definition check_excluded (excl : list string) (obsmode : string) : outcome unit :=
  for_each
    (fun (_ : unit) o =>
       if bool_decide (o ∈ excl) then
         u ← unicode obsmode;
         Raise (ObsmodeError ("Entered obsmode includes excluded parameters: " +:+ u))
       else Ok tt)
    (Py.split "," obsmode) tt.

(** [get_obsmodes] for an [obsmode] of type [str], reading the rules from
    the table [rules]. *)
Definition get_obsmodes_in `{World} (rules : gmap string rule) (g : Graph)
    (obsmode : string) (prefix : bool) : outcome (list string) :=
  key ← obsrules_key rules obsmode;
  obsrules_junk ← merged junk rules key;
  obsrules_excl ← merged exclude rules key;
  _ ← check_excluded obsrules_excl obsmode;
  let instrmode := if prefix then Some obsmode else None in
  p ← traverse g obsmode true;
  startnode ← Graph_getitem g (offset p);
  obs ← recurse (Some obsrules_junk) (Some obsrules_excl) recursion_limit
                (Some startnode) None [];
  process obsrules_junk instrmode obs.

(** [Graph.get_obsmodes] with the module's table. *)
Definition get_obsmodes `{World} (g : Graph) (obsmode : string) (prefix : bool)
  : outcome (list string) :=
  get_obsmodes_in rules_dict g obsmode prefix.

(** ** Candidates *)

(** The string that [recurse] builds along edges with the keywords [ks]:
    a comma before every keyword. *)
Fixpoint render (ks : list string) : string :=
  match ks with
  | [] => EmptyString
  | k :: ks' => "," +:+ k +:+ render ks'
  end.

(** What [process] does to one string of a non-empty list: it is read
    back from the array first and after every replacement. *)
Definition strip (junk : list string) (s : string) : string :=
  fold_left
    (fun s jk => let '(j, r) := junk_pattern jk in Np.rstrip_nul (Py.replace s j r))
    junk (Np.rstrip_nul s).

(** Junk keywords without commas, as those of [rules_dict] are. *)
Definition clean_junk (junk : list string) : bool :=
  forallb (fun j => negb (Py.has_char "," j)) junk.

(** A keyword borne by some edge of the store and not excluded. *)
Definition edge_kwd `{World} (excl : list string) (k : string) : Prop :=
  (k ∉ excl) /\ exists l e, e ∈ dict_values (edges (heap l)) /\ kwd e = k.

(** A string that [recurse] may record when it has come as far as [so_far]:
    [so_far] extended by the keywords of further edges, none excluded and
    the last one not junk. *)
Definition candidate `{World} (junk excl : list string) (so_far s : string) : Prop :=
  exists ks kl, s = so_far +:+ render (ks ++ [kl]) /\
                Forall (edge_kwd excl) (ks ++ [kl]) /\ kl ∉ junk.

(** ** Further methods and notions *)

(** [nodename in self]. *)
Definition Graph_contains (g : Graph) (nodename : option string) : bool :=
  match nodename with
  | Some nm => bool_decide (nm ∈ dom (nodes g))
  | None => false
  end.

(** [self.get(nodename, default)]; [None] stands for Python's [None]. *)
Definition Graph_get (g : Graph) (nodename : option string) (dflt : option ref)
  : option ref :=
  match nodename with
  | Some nm =>
      match nodes g !! nm with
      | Some l => Some l
      | None => dflt
      end
  | None => dflt
  end.

(** The edges [es] can be taken one after the other from the node [l]:
    each is an edge of the node that the one before leads to. *)
Fixpoint edge_path `{World} (l : ref) (es : list Edge) : Prop :=
  match es with
  | [] => True
  | e :: es' =>
      e ∈ dict_values (edges (heap l)) /\
      match es' with
      | [] => True
      | _ :: _ => exists l', destination e = Some l' /\ edge_path l' es'
      end
  end.

(** The edges [es] can be walked from the node [l] by [traverse]: each
    is an edge of the node that the one before leads to, or the sentinel
    of [select_edge], which leads nowhere. *)
Fixpoint route `{World} (l : ref) (es : list Edge) : Prop :=
  match es with
  | [] => True
  | e :: es' =>
      (e = sentinel \/ e ∈ dict_values (edges (heap l))) /\
      match es' with
      | [] => True
      | _ :: _ => exists l', destination e = Some l' /\ route l' es'
      end
  end.

(** What the loop of [traverse] maintains besides [walk_inv], when it
    started at the node [l0] with the parameters [ps]: the path is a
    route from [l0] that ends where the loop stands, it keeps its name,
    and its parameters keep their keys, a value being the one of [ps] or
    a list put there by [Path.append]. *)
Definition walk_shape `{World} (l0 : ref) (obsmode : string)
    (ps : gmap string param_value) (st : walk_state) : Prop :=
  route l0 (edgelist (ans st)) /\
  innode st = match last (edgelist (ans st)) with
              | Some e => destination e
              | None => Some l0
              end /\
  path_name (ans st) = obsmode /\
  dom (params (ans st)) = dom ps /\
  (forall K, params (ans st) !! K = ps !! K \/
             exists vs, params (ans st) !! K = Some (PFloats vs)).

(** The loop of [traverse] has come to its end in the state [st]. *)
Definition walk_done `{World} (g : Graph) (kwdset : gset string) (partial : bool)
    (st : walk_state) : Prop :=
  innode st = None \/ len g < count st \/
  exists l k, innode st = Some l /\
              select_edge (heap l) kwdset partial (kwdcount st) = Raise (KeyError k).



(** The obsmodes for which [rules_dict] holds rules: its keys, and the
    keys that end in [,*] without that ending. *)
Definition supported_obsmodes : list string :=
  rules_list.*1 ++ ["wfpc2"; "stis"].


(** The strings that [recurse] records below [node] when it has come as
    far as [so_far]: one for every path of edges from the node, none
    excluded and the last one not junk. *)
Definition recorded `{World} (junk excl : list string) (node : option ref)
    (so_far s : string) : Prop :=
  match node with
  | None => False
  | Some l =>
      exists es e, edge_path l (es ++ [e]) /\
                   (forall e', e' ∈ es ++ [e] -> kwd e' ∉ excl) /\
                   (kwd e ∉ junk) /\
                   s = so_far +:+ render (kwd <$> es ++ [e])
  end.

(** Two outcomes of [traverse] agree but for the name of the path. *)
Definition same_walk (r1 r2 : outcome Path) : Prop :=
  match r1, r2 with
  | Ok p1, Ok p2 =>
      edgelist p1 = edgelist p2 /\ params p1 = params p2 /\ offset p1 = offset p2 /\
      offset_writes p1 = offset_writes p2
  | Raise x1, Raise x2 => x1 = x2
  | _, _ => False
  end.

(** Two states of the loop of [traverse] agree but for the name of the
    path. *)
Definition same_state (st1 st2 : walk_state) : Prop :=
  innode st1 = innode st2 /\ count st1 = count st2 /\ kwdcount st1 = kwdcount st2 /\
  edge_list st1 = edge_list st2 /\ same_walk (Ok (ans st1)) (Ok (ans st2)).


(** ** Worlds and graphs for the examples *)

Module Demo.

Definition edge_to (k : string) (d : option ref) : Edge :=
  mkEdge k None None None None d.

(** [n = Node(nm)] followed by [n.add_edge(e)] for every [e] of [es]. *)
Definition node_of (nm : string) (es : list Edge) : Node :=
  fold_left add_edge es (Node_init nm).

(** A world whose store holds the objects [objs]; iteration follows the
    order of [elements] and [map_to_list], no component file can be
    opened, and fifty nested calls are allowed. *)
Definition world_of (objs : gmap ref Node) : World :=
  {| heap := fun l => default (Node_init EmptyString) (objs !! l);
     set_iter := fun l => elements (list_to_set l : gset string);
     set_iter_perm := fun _ => reflexivity _;
     dict_values := fun m => (map_to_list m).*2;
     dict_values_perm := fun _ => reflexivity _;
     fits_cnames := fun f => Raise (IOError f);
     float_ok := fun _ => false;
     recursion_limit := 50 |}.

(** [Graph(ls)], or the graph without nodes when the constructor raises. *)
Definition graph_of (W : World) (ls : list ref) : Graph :=
  match @Graph_init W (Some ls) with
  | Ok g => g
  | Raise _ => mkGraph ∅ None
  end.

(** The graph of the scenario [top -acs-> A -wfc1-> B -f555w-> C], where
    [C] offers [wfc2] and a default edge to [D]. *)
Definition acs_objs : gmap ref Node :=
  list_to_map [
    (1%positive, node_of "top" [edge_to "acs" (Some 2%positive); edge_to "default" None]);
    (2%positive, node_of "A" [edge_to "wfc1" (Some 3%positive); edge_to "default" None]);
    (3%positive, node_of "B" [edge_to "f555w" (Some 4%positive)]);
    (4%positive, node_of "C" [edge_to "wfc2" None; edge_to "default" (Some 5%positive)]);
    (5%positive, node_of "D" [edge_to "pol_v" None])
  ].
Definition acs_world : World := world_of acs_objs.
Definition acs_graph : Graph := graph_of acs_world [1; 2; 3; 4; 5]%positive.

(** Two nodes whose default edges point at each other. *)
Definition loop_objs : gmap ref Node :=
  list_to_map [
    (1%positive, node_of "p" [edge_to "default" (Some 2%positive)]);
    (2%positive, node_of "q" [edge_to "default" (Some 1%positive)])
  ].
Definition loop_world : World := world_of loop_objs.
Definition loop_graph : Graph := graph_of loop_world [1; 2]%positive.

(** [B] leads on through the keywords [wfdefault] and [c2]. *)
Definition mangle_objs : gmap ref Node :=
  list_to_map [
    (1%positive, node_of "top" [edge_to "acs" (Some 2%positive); edge_to "default" None]);
    (2%positive, node_of "A" [edge_to "wfc1" (Some 3%positive); edge_to "default" None]);
    (3%positive, node_of "B" [edge_to "wfdefault" (Some 4%positive)]);
    (4%positive, node_of "C" [edge_to "c2" None])
  ].
Definition mangle_world : World := world_of mangle_objs.
Definition mangle_graph : Graph := graph_of mangle_world [1; 2; 3; 4]%positive.

(** [B] leads on through two empty keywords and [x]. *)
Definition blank_objs : gmap ref Node :=
  list_to_map [
    (1%positive, node_of "top" [edge_to "acs" (Some 2%positive); edge_to "default" None]);
    (2%positive, node_of "A" [edge_to "wfc1" (Some 3%positive); edge_to "default" None]);
    (3%positive, node_of "B" [edge_to "" (Some 4%positive)]);
    (4%positive, node_of "C" [edge_to "" (Some 5%positive)]);
    (5%positive, node_of "D" [edge_to "x" None])
  ].
Definition blank_world : World := world_of blank_objs.
Definition blank_graph : Graph := graph_of blank_world [1; 2; 3; 4; 5]%positive.


(** A world with one component file, [acs_mjd.fits], whose table has the
    columns [WAVELENGTH], [MJD#50000], [MJD#51000] and [ERROR]; [float]
    accepts every text but the empty one. *)
Definition fits_world : World :=
  {| heap := fun _ => Node_init EmptyString;
     set_iter := fun l => elements (list_to_set l : gset string);
     set_iter_perm := fun _ => reflexivity _;
     dict_values := fun m => (map_to_list m).*2;
     dict_values_perm := fun _ => reflexivity _;
     fits_cnames := fun f =>
       if bool_decide (f = Some "acs_mjd.fits")
       then Ok ["MJD#50000"; "MJD#51000"; "ERROR"]
       else Raise (IOError f);
     float_ok := fun s => negb (bool_decide (s = EmptyString));
     recursion_limit := 50 |}.

End Demo.

(** * Properties *)

(** ** Strings *)

Lemma sapp_nil_l s : EmptyString +:+ s = s.
Proof. reflexivity. Qed.

Lemma sapp_cons c s t : String c s +:+ t = String c (s +:+ t).
Proof. reflexivity. Qed.

Lemma sapp_nil_r s : s +:+ EmptyString = s.
Proof. induction s as [|c s IH]; [done|]. by rewrite sapp_cons, IH. Qed.

Lemma sapp_assoc s t u : (s +:+ t) +:+ u = s +:+ t +:+ u.
Proof. induction s as [|c s IH]; [done|]. by rewrite !sapp_cons, IH. Qed.

Lemma sapp_length s t : String.length (s +:+ t) = (String.length s + String.length t)%nat.
Proof. induction s as [|c s IH]; [done|]. rewrite sapp_cons. simpl. by rewrite IH. Qed.

Lemma split_nonempty c s : Py.split c s <> [].
Proof.
  destruct s as [|a s]; simpl; [done|].
  destruct (decide (a = c)); [done|]. by destruct (Py.split c s).
Qed.

Lemma split_fields c s : Forall (fun f => Py.has_char c f = false) (Py.split c s).
Proof.
  induction s as [|a s IH]; simpl.
  - by constructor.
  - destruct (decide (a = c)) as [->|Hne].
    + by constructor.
    + destruct (Py.split c s) as [|h t]; simpl.
      * constructor; [|done]. simpl. by rewrite decide_False.
      * inversion_clear IH. constructor; [|done]. simpl. by rewrite decide_False.
Qed.

Lemma join_split c s : Py.join (String c EmptyString) (Py.split c s) = s.
Proof.
  induction s as [|a s IH]; simpl; [done|].
  destruct (decide (a = c)) as [->|Hne].
  - pose proof (split_nonempty c s).
    destruct (Py.split c s) as [|h t] eqn:Hs; [done|].
    change (Py.join _ (EmptyString :: h :: t))
      with (EmptyString +:+ String c EmptyString
            +:+ Py.join (String c EmptyString) (h :: t)).
    by rewrite IH.
  - pose proof (split_nonempty c s).
    destruct (Py.split c s) as [|h t] eqn:Hs; [done|].
    destruct t as [|h' t]; simpl in *; [by rewrite IH|].
    rewrite sapp_cons. by rewrite IH.
Qed.

Lemma split_no_sep c s : Py.has_char c s = false -> Py.split c s = [s].
Proof.
  induction s as [|a s IH]; simpl; [done|].
  destruct (decide (a = c)); [done|]. intros H. by rewrite IH.
Qed.

Lemma split_app c a b :
  Py.has_char c a = false -> Py.split c (a +:+ String c b) = a :: Py.split c b.
Proof.
  induction a as [|x a IH]; simpl.
  - intros _. by rewrite decide_True.
  - destruct (decide (x = c)); [done|]. intros H. by rewrite IH.
Qed.

(** What [k, v = p.split('#')] yields for a token with one [#]. *)
Lemma split_pair c p b v :
  Py.split c p = [b; v] ->
  p = b +:+ String c v /\ Py.has_char c b = false /\ Py.has_char c v = false.
Proof.
  intros H. pose proof (join_split c p) as Hj. pose proof (split_fields c p) as Hf.
  rewrite H in Hj, Hf. simpl in Hj.
  inversion_clear Hf as [|? ? Hb Hf']. inversion_clear Hf' as [|? ? Hv _]. done.
Qed.

Lemma split_pair_has_char c p b v : Py.split c p = [b; v] -> Py.has_char c p = true.
Proof.
  intros H. destruct (Py.has_char c p) eqn:Hc; [done|].
  apply split_no_sep in Hc. congruence.
Qed.

Lemma split_base c p b v :
  Py.split c p = [b; v] -> Py.split c (b +:+ String c EmptyString) = [b; EmptyString].
Proof. intros (_ & Hb & _)%split_pair. by rewrite split_app. Qed.

(** Membership in a list that evaluates to a literal. *)
Ltac in_list :=
  vm_compute; repeat first [apply list_elem_of_here | apply list_elem_of_further].

(** ** Nodes and select_edge *)

Lemma Node_built_edgeset n : Node_built n -> edgeset n = dom (edges n).
Proof.
  induction 1 as [nm|n e _ IH]; simpl.
  - by rewrite dom_empty_L.
  - rewrite dom_insert_L, IH. reflexivity.
Qed.

Lemma Node_built_kwd n k e : Node_built n -> edges n !! k = Some e -> kwd e = k.
Proof.
  induction 1 as [nm|n e' _ IH]; simpl.
  - by rewrite lookup_empty.
  - rewrite lookup_insert. case_decide; [congruence | exact IH].
Qed.

Lemma node_of_built nm es : Node_built (Demo.node_of nm es).
Proof.
  unfold Demo.node_of. generalize (built_init nm).
  generalize (Node_init nm). induction es as [|e es IH]; simpl; intros n Hn.
  - exact Hn.
  - apply IH. by constructor.
Qed.

(** C2. [select_edge] raises its ambiguity error exactly when more than one
    keyword of the node's edge set is in the keyword set; when exactly one
    is, and the node was built by [Node(name)] and [add_edge], the call
    returns the edge stored under that keyword, which is the edge bearing
    it. *)
Theorem select_edge_ambiguity (n : Node) (kwdset : gset string) (partial : bool) (count : Z) :
  (select_edge n kwdset partial count = Raise ambiguous
     <-> (1 < size (edgeset n ∩ kwdset))%nat) /\
  (Node_built n -> size (edgeset n ∩ kwdset) = 1%nat ->
     exists e, edgeset n ∩ kwdset = {[kwd e]} /\ edges n !! kwd e = Some e /\
               select_edge n kwdset partial count = Ok e).
Proof.
  unfold select_edge. split.
  - split.
    + destruct (decide (1 < size _)%nat) as [H1|H1]; [done|].
      destruct (decide (size _ = 1%nat)) as [H2|H2].
      * destruct (elements _) as [|k ?]; [discriminate|].
        unfold edges_getitem. destruct (edges n !! k); discriminate.
      * destruct (edges n !! "default"); [|discriminate].
        destruct (negb partial || _); discriminate.
    + intros H1. by rewrite decide_True.
  - intros Hn H1. rewrite decide_False by lia. rewrite decide_True by done.
    destruct (size_1_elem_of _ H1) as [k Hk%leibniz_equiv].
    rewrite Hk, elements_singleton.
    assert (k ∈ dom (edges n)) as [e He]%elem_of_dom.
    { rewrite <- (Node_built_edgeset n Hn).
      assert (k ∈ edgeset n ∩ kwdset) as [? _]%elem_of_intersection; [|done].
      rewrite Hk. by apply elem_of_singleton. }
    pose proof (Node_built_kwd n k e Hn He) as <-.
    exists e. unfold edges_getitem. by rewrite He.
Qed.

Lemma select_edge_ambiguity_witness :
  let n := Demo.node_of "n" [Demo.edge_to "a" None; Demo.edge_to "b" None] in
  (select_edge n {["a"; "b"]} false 0 = Raise ambiguous
     <-> (1 < size (edgeset n ∩ {["a"; "b"]}))%nat) /\
  (exists e, edgeset n ∩ {["a"; "c"]} = {[kwd e]} /\ edges n !! kwd e = Some e /\
             select_edge n {["a"; "c"]} false 0 = Ok e).
Proof.
  intros n. split.
  - apply (select_edge_ambiguity n {["a"; "b"]} false 0).
  - apply (select_edge_ambiguity n {["a"; "c"]} false 0); [apply node_of_built|].
    vm_compute. reflexivity.
Defined.

(** C3. When no keyword of the node's edge set is in the keyword set,
    [select_edge] returns the node's [default] edge if there is one and
    either [partial] is off or [count] is below the size of the keyword
    set; it returns the sentinel (keyword [default], no destination) if
    there is a [default] edge but [partial] is on and [count] has reached
    that size, and also if there is no [default] edge.  It never raises. *)
Theorem select_edge_no_match (n : Node) (kwdset : gset string) (partial : bool) (count : Z) :
  size (edgeset n ∩ kwdset) = 0%nat ->
  (forall d, edges n !! "default" = Some d ->
     partial = false \/ (partial = true /\ count < Z.of_nat (size kwdset)) ->
     select_edge n kwdset partial count = Ok d) /\
  (forall d, edges n !! "default" = Some d ->
     partial = true -> Z.of_nat (size kwdset) <= count ->
     select_edge n kwdset partial count = Ok sentinel) /\
  (edges n !! "default" = None ->
     select_edge n kwdset partial count = Ok sentinel) /\
  kwd sentinel = "default" /\ destination sentinel = None.
Proof.
  intros H0. unfold select_edge. rewrite H0.
  rewrite decide_False by lia. rewrite decide_False by lia.
  repeat split.
  - intros d -> [->|[-> Hc]]; [done|].
    apply Z.ltb_lt in Hc. by rewrite Hc.
  - intros d -> -> Hc. apply Z.ltb_ge in Hc. by rewrite Hc.
  - by intros ->.
Qed.

Lemma select_edge_no_match_witness :
  let n := Demo.node_of "n" [Demo.edge_to "a" None; Demo.edge_to "default" (Some 7%positive)] in
  select_edge n {["x"; "y"]} true 1 = Ok (Demo.edge_to "default" (Some 7%positive)) /\
  select_edge n {["x"; "y"]} true 2 = Ok sentinel /\
  select_edge (Demo.node_of "m" [Demo.edge_to "a" None]) {["x"]} false 0 = Ok sentinel.
Proof.
  intros n.
  assert (size (edgeset n ∩ {["x"; "y"]}) = 0%nat) as H0 by (vm_compute; reflexivity).
  pose proof (select_edge_no_match n {["x"; "y"]} true 1 H0) as (H1 & _).
  pose proof (select_edge_no_match n {["x"; "y"]} true 2 H0) as (_ & H2 & _).
  assert (size (edgeset (Demo.node_of "m" [Demo.edge_to "a" None]) ∩ {["x"]}) = 0%nat)
    as H0' by (vm_compute; reflexivity).
  pose proof (select_edge_no_match _ {["x"]} false 0 H0') as (_ & _ & H3 & _).
  split; [|split].
  - apply H1; [vm_compute; reflexivity|]. right. split; [reflexivity|]. vm_compute. reflexivity.
  - apply (H2 (Demo.edge_to "default" (Some 7%positive))); [vm_compute; reflexivity|reflexivity|].
    vm_compute. discriminate.
  - apply H3. vm_compute. reflexivity.
Defined.

(** ** The walk of traverse *)

Lemma bind_Ok {A B} (m : outcome A) (k : A -> outcome B) (b : B) :
  m ≫= k = Ok b <-> exists a, m = Ok a /\ k a = Ok b.
Proof.
  destruct m as [a|e]; simpl; split.
  - intros H. by exists a.
  - by intros (a' & [= <-] & H).
  - discriminate.
  - by intros (a' & [=] & _).
Qed.

Lemma offset_assignments_snoc `{World} kwdset seen es e :
  offset_assignments kwdset seen (es ++ [e])
  = offset_assignments kwdset seen es ++ offset_of kwdset (seen ++ (kwd <$> es)) e.
Proof.
  revert seen. induction es as [|e' es IH]; intros seen; simpl.
  - by rewrite !app_nil_r.
  - rewrite IH, <- !app_assoc. reflexivity.
Qed.

Section Walk.
Context `{W : World}.
Variables (g : Graph) (kwdset : gset string) (partial : bool).

Lemma Path_append_fields p e p' :
  Path_append p e = Ok p' ->
  edgelist p' = edgelist p ++ [e] /\ offset p' = offset p /\
  offset_writes p' = offset_writes p /\ path_name p' = path_name p.
Proof.
  unfold Path_append. destruct (pvar e) as [pv|]; [|by intros [= <-]].
  destruct (_ && _); [|by intros [= <-]].
  intros (cn & _ & (pvs & _ & [= <-])%bind_Ok)%bind_Ok. done.
Qed.

Lemma walk_step_Next st l st' :
  walk_step kwdset partial st l = Ok (Next st') ->
  exists edge ans1,
    select_edge (heap l) kwdset partial (kwdcount st) = Ok edge /\
    Path_append (ans st) edge = Ok ans1 /\
    st' = mkWalk (destination edge) (count st + 1)
            (if counts kwdset (edge_list st) edge then kwdcount st + 1 else kwdcount st)
            (edge_list st ++ [kwd edge])
            (if counts kwdset (edge_list st) edge then
               match destination edge with
               | Some d => set_offset ans1 (name (heap d))
               | None => ans1
               end
             else ans1).
Proof.
  unfold walk_step. destruct (select_edge _ _ _ _) as [edge|[]]; try discriminate.
  intros (ans1 & Ha & [= <-])%bind_Ok. by exists edge, ans1.
Qed.

Lemma walk_rounds st p :
  walk g kwdset partial st = Ok p ->
  exists st', rtc (round g kwdset partial) st st' /\ p = ans st'.
Proof.
  revert p. funelim (walk g kwdset partial st); intros p; try clear Heqcall.
  1-3: intros [= <-]; eexists; split; [apply rtc_refl | reflexivity].
  - intros (st'' & Hr & ->)%H0. exists st''. split; [|done].
    eapply rtc_l; [|exact Hr]. exists l. pose proof (proj1 (Z.leb_le _ _) Hc). done.
  - discriminate.
Qed.

Lemma round_inv st st' :
  round g kwdset partial st st' -> walk_inv g kwdset st -> walk_inv g kwdset st'.
Proof.
  intros (l & Hl & Hc & (edge & ans1 & Hsel & Happ & ->)%walk_step_Next)
         [Iel Icn Ibd Iwr Iof (hits & Hnd & Hsub & Hk & Hcnt & Hlen)].
  apply Path_append_fields in Happ as (He & Ho & Hw & _).
  split; simpl.
  - destruct (counts _ _ _), (destination edge); simpl;
      by rewrite He, fmap_app, Iel.
  - destruct (counts _ _ _), (destination edge); simpl;
      rewrite He, length_app; simpl; lia.
  - lia.
  - destruct (counts _ _ _) eqn:Hh, (destination edge) eqn:Hd; simpl;
      rewrite He, offset_assignments_snoc; simpl; rewrite <- Iel;
      unfold offset_of; rewrite Hh, ?Hd, Hw, Iwr, ?app_nil_r; done.
  - destruct (counts _ _ _), (destination edge); simpl;
      rewrite ?last_snoc, ?Hw, ?Ho; done.
  - destruct (counts _ _ _) eqn:Hh.
    + exists (kwd edge :: hits). unfold counts in Hh.
      apply andb_prop in Hh as [[Hin%bool_decide_eq_true Hnew%bool_decide_eq_true]%andb_prop _].
      split; [|split; [|split; [|split]]].
      * constructor; [|done]. intros Hin'. apply Hnew, Hsub, Hin'.
      * intros k [->|Hk']%elem_of_cons; [set_solver|]. apply elem_of_app. left. by apply Hsub.
      * intros k [->|Hk']%elem_of_cons; [done|by apply Hk].
      * simpl length. lia.
      * destruct (destination edge); simpl; rewrite ?length_app, Hw; simpl; lia.
    + exists hits. repeat split; try done.
      * intros k Hk'. apply elem_of_app. left. by apply Hsub.
      * by rewrite Hw.
Qed.

Lemma rounds_inv st st' :
  rtc (round g kwdset partial) st st' -> walk_inv g kwdset st -> walk_inv g kwdset st'.
Proof. induction 1; eauto using round_inv. Qed.

Lemma walk_inv_init l obsmode ps :
  walk_inv g kwdset (mkWalk (Some l) 0 0 [] (Path_init obsmode ps)).
Proof.
  split; simpl; try done.
  - unfold len. lia.
  - exists []. split; [constructor|]. split; [done|]. split; [|done].
    intros k Hk. inversion Hk.
Qed.

(** Beyond the bound the loop is not entered again. *)
Lemma walk_beyond st : len g < count st -> walk g kwdset partial st = Ok (ans st).
Proof.
  intros Hc. funelim (walk g kwdset partial st); try reflexivity.
  all: pose proof (proj1 (Z.leb_le _ _) Hc); lia.
Qed.

(** Nor is it entered without a current node. *)
Lemma walk_no_node st : innode st = None -> walk g kwdset partial st = Ok (ans st).
Proof.
  intros Hn. funelim (walk g kwdset partial st); try reflexivity.
  all: congruence.
Qed.

End Walk.

Lemma traverse_Ok `{World} g obsmode partial p :
  traverse g obsmode partial = Ok p <->
  exists kwdset ps t l,
    keywords obsmode = Ok (kwdset, ps) /\ top g = Some t /\
    nodes g !! name (heap t) = Some l /\
    walk g kwdset partial (mkWalk (Some l) 0 0 [] (Path_init obsmode ps)) = Ok p.
Proof.
  unfold traverse. rewrite bind_Ok. split.
  - intros ([kwdset ps] & Hk & (t & Ht & (l & Hl & Hw)%bind_Ok)%bind_Ok).
    exists kwdset, ps, t, l. destruct (top g); [|done]. injection Ht as ->.
    unfold Graph_getitem in Hl. destruct (nodes g !! _); [|done]. by injection Hl as ->.
  - intros (kwdset & ps & t & l & Hk & Ht & Hl & Hw). exists (kwdset, ps). split; [done|].
    rewrite Ht. simpl. unfold Graph_getitem. rewrite Hl. done.
Qed.

Lemma traverse_inv `{World} g obsmode partial p :
  traverse g obsmode partial = Ok p ->
  exists kwdset ps st, keywords obsmode = Ok (kwdset, ps) /\ walk_inv g kwdset st /\ p = ans st.
Proof.
  intros (kwdset & ps & t & l & Hk & _ & _ & (st & Hr & ->)%walk_rounds)%traverse_Ok.
  exists kwdset, ps, st. split; [done|]. split; [|done].
  eapply rounds_inv; [exact Hr|]. apply walk_inv_init.
Qed.

(** C5. [traverse] is a total function: its loop is defined by recursion on
    the distance of [count] from [len(self) + 1], so it ends on every graph,
    cyclic or not.  Without a current node, or once [count] is beyond
    [len(self)], the loop hands back the path accumulated so far, without
    raising; and a path that [traverse] returns has at most
    [len(self) + 1] edges. *)
Theorem traverse_bounded `{World} (g : Graph) (obsmode : string) (partial : bool) :
  (forall kwdset st, innode st = None \/ len g < count st ->
                     walk g kwdset partial st = Ok (ans st)) /\
  (forall p, traverse g obsmode partial = Ok p ->
             (length (edgelist p) <= size (nodes g) + 1)%nat).
Proof.
  split.
  - intros kwdset st [Hn|Hc]; [by apply walk_no_node|by apply walk_beyond].
  - intros p (kwdset & ps & st & _ & [_ Icn Ibd _ _ _] & ->)%traverse_inv.
    unfold len in *. lia.
Qed.

(** On two nodes whose default edges point at each other the walk is cut
    after three edges. *)
Lemma traverse_bounded_witness :
  exists p, @traverse Demo.loop_world Demo.loop_graph "acs" false = Ok p /\
            length (edgelist p) = 3%nat /\
            (length (edgelist p) <= size (nodes Demo.loop_graph) + 1)%nat.
Proof.
  assert (exists p, @traverse Demo.loop_world Demo.loop_graph "acs" false = Ok p /\
                    length (edgelist p) = 3%nat) as (p & Hp & Hlen)
    by (eexists; split; vm_compute; reflexivity).
  exists p. split; [exact Hp|]. split; [exact Hlen|].
  exact (proj2 (@traverse_bounded Demo.loop_world Demo.loop_graph "acs" false) p Hp).
Defined.

(** C4, as the code has it.  [offset] is assigned once for every edge of
    the walk that has a destination and whose keyword is in the keyword
    set, is not [default] and was not borne by an earlier edge of the walk:
    the assignments are those of [offset_assignments].  There are at most
    as many as the keyword set has elements, and the [offset] of the
    returned path is the value assigned last, or [None] if there was no
    assignment. *)
Theorem traverse_offset_writes `{World} (g : Graph) (obsmode : string) (partial : bool)
    (p : Path) (kwdset : gset string) (ps : gmap string param_value) :
  traverse g obsmode partial = Ok p ->
  keywords obsmode = Ok (kwdset, ps) ->
  offset_writes p = offset_assignments kwdset [] (edgelist p) /\
  offset p = last (offset_writes p) /\
  (length (offset_writes p) <= size kwdset)%nat.
Proof.
  intros (kwdset' & ps' & st & Hk & [_ _ _ Iwr Iof Ihits] & ->)%traverse_inv Hk'.
  rewrite Hk in Hk'. injection Hk' as -> ->.
  split; [done|]. split; [done|].
  destruct Ihits as (hits & Hnd & _ & Hin & _ & Hlen).
  etrans; [exact Hlen|].
  rewrite <- (size_list_to_set (C:=gset string) hits Hnd).
  apply subseteq_size. intros k Hk''%elem_of_list_to_set. by apply Hin.
Qed.

Lemma traverse_offset_writes_witness :
  exists p kwdset ps,
    @traverse Demo.acs_world Demo.acs_graph "acs,wfc1,f555w" true = Ok p /\
    @keywords Demo.acs_world "acs,wfc1,f555w" = Ok (kwdset, ps) /\
    offset_writes p = @offset_assignments Demo.acs_world kwdset [] (edgelist p) /\
    offset p = last (offset_writes p) /\
    (length (offset_writes p) <= size kwdset)%nat.
Proof.
  assert (exists p, @traverse Demo.acs_world Demo.acs_graph "acs,wfc1,f555w" true = Ok p)
    as [p Hp] by (eexists; vm_compute; reflexivity).
  assert (exists kwdset ps, @keywords Demo.acs_world "acs,wfc1,f555w" = Ok (kwdset, ps))
    as (kwdset & ps & Hk) by (eexists _, _; vm_compute; reflexivity).
  exists p, kwdset, ps. split; [exact Hp|]. split; [exact Hk|].
  exact (@traverse_offset_writes Demo.acs_world Demo.acs_graph _ true p kwdset ps Hp Hk).
Defined.

(** The walk for ["acs,wfc1,f555w"] assigns [offset] three times: after
    [acs], after [wfc1] and after [f555w]. *)
Lemma traverse_offset_once_counterexample :
  exists p, @traverse Demo.acs_world Demo.acs_graph "acs,wfc1,f555w" false = Ok p /\
            offset_writes p = ["A"; "B"; "C"] /\
            ~ (length (offset_writes p) <= 1)%nat.
Proof.
  eexists. split; [vm_compute; reflexivity|]. split; [reflexivity|]. simpl. lia.
Qed.

(** ** The parameterized keywords of traverse *)

Section Keywords.
Variable T : gset string.

Lemma param_step_inv done p b v st :
  p ∈ T -> p ∉ done -> Py.split "#" p = [b; v] ->
  params_inv T done st ->
  exists st', param_step st p = Ok st' /\ params_inv T (done ++ [p]) st'.
Proof.
  intros HpT Hpd Hs (HS & Hps & Hdom). destruct st as [S ps]. simpl in *.
  unfold param_step. rewrite decide_True by (apply HS; by left).
  rewrite Hs. eexists. split; [reflexivity|]. split; [|split]; simpl.
  - intros k. rewrite elem_of_union, elem_of_singleton, elem_of_difference,
      elem_of_singleton, HS. split.
    + intros [->|[[[Hk Hkd]|(p' & b' & v' & Hp' & Hs' & ->)] Hne]].
      * right. exists p, b, v. split; [|done]. apply elem_of_app. right. by left.
      * left. split; [done|]. intros [?|?%list_elem_of_singleton]%elem_of_app; done.
      * right. exists p', b', v'. split; [|done]. apply elem_of_app. by left.
    + intros [[Hk Hkd]|(p' & b' & v' & Hp' & Hs' & ->)].
      * right. split.
        -- left. split; [done|]. intros ?. apply Hkd, elem_of_app. by left.
        -- intros ->. apply Hkd, elem_of_app. right. by left.
      * apply elem_of_app in Hp' as [Hp'|Hp'%list_elem_of_singleton]; [|subst p'].
        -- destruct (decide (b' +:+ "#" = p)) as [Heq|Hne].
           ++ left. pose proof (split_base _ _ _ _ Hs') as Hb.
              rewrite Heq, Hs in Hb. by injection Hb as -> _.
           ++ right. split; [|done]. right. by exists p', b', v'.
        -- left. rewrite Hs in Hs'. by injection Hs' as -> _.
  - intros K x. rewrite lookup_insert. case_decide as HK.
    + intros [= <-]. exists p, b, v. split; [|done]. apply elem_of_app. right. by left.
    + intros (p' & b' & v' & Hp' & ?)%Hps. exists p', b', v'. split; [|done].
      apply elem_of_app. by left.
  - intros p' b' v' [Hp'|Hp'%list_elem_of_singleton]%elem_of_app Hs'; [|subst p'].
    + rewrite lookup_insert. case_decide; [done|]. by eapply Hdom.
    + rewrite Hs in Hs'. injection Hs' as <- <-. rewrite lookup_insert.
      by rewrite decide_True.
Qed.

Lemma param_loop_inv todo : forall done st,
  NoDup (done ++ todo) ->
  (forall p, p ∈ todo -> p ∈ T /\ exists b v, Py.split "#" p = [b; v]) ->
  params_inv T done st ->
  exists st', for_each param_step todo st = Ok st' /\ params_inv T (done ++ todo) st'.
Proof.
  induction todo as [|p todo IH]; intros done st Hnd Htodo Hinv; simpl.
  - exists st. by rewrite app_nil_r.
  - destruct (Htodo p) as (HpT & b & v & Hs); [by left|].
    destruct (param_step_inv done p b v st) as (st1 & -> & Hinv1); try done.
    { apply NoDup_app in Hnd as (_ & Hd & _). intros Hp. apply (Hd p Hp). by left. }
    simpl. replace (done ++ p :: todo) with ((done ++ [p]) ++ todo)
      by (by rewrite <- app_assoc).
    apply IH; [by rewrite <- app_assoc| |done].
    intros p' Hp'. apply Htodo. by right.
Qed.

Lemma params_inv_init : params_inv T [] (T, ∅).
Proof.
  split; [|split]; simpl.
  - intros k. split.
    + intros Hk. left. split; [done|]. by intros ?%elem_of_nil.
    + intros [[Hk _]|(p & _ & _ & ?%elem_of_nil & _)]; done.
  - intros K x. by rewrite lookup_empty.
  - by intros p b v ?%elem_of_nil.
Qed.
End Keywords.

(** C6, as the code has it.  When every token of the obsmode that contains
    [#] contains it once, the parameter loop succeeds.  Its keyword set
    holds the tokens without [#] and, for each token [base#value], the
    keyword [base#]; so a raw token with a non-empty value is no longer in
    it.  Every entry of the parameters maps the upper-cased [base#] of some
    token to the value of that token, and a token whose upper-cased [base#]
    no other token shares finds its own value there.  These parameters are
    the ones the path is created with. *)
Theorem keywords_parameterized `{World} (obsmode : string) :
  (forall p, p ∈ Py.split "," obsmode -> Py.has_char "#" p = true ->
             exists b v, Py.split "#" p = [b; v]) ->
  exists kwdset ps,
    keywords obsmode = Ok (kwdset, ps) /\
    (forall k, k ∈ kwdset <->
       (k ∈ Py.split "," obsmode /\ Py.has_char "#" k = false) \/
       (exists p b v, p ∈ Py.split "," obsmode /\ Py.split "#" p = [b; v] /\
                      k = b +:+ "#")) /\
    (forall p b v, p ∈ Py.split "," obsmode -> Py.split "#" p = [b; v] ->
       v <> EmptyString -> p ∉ kwdset) /\
    (forall K x, ps !! K = Some x ->
       exists p b v, p ∈ Py.split "," obsmode /\ Py.split "#" p = [b; v] /\
                     K = Py.upper (b +:+ "#") /\ x = PStr v) /\
    (forall p b v, p ∈ Py.split "," obsmode -> Py.split "#" p = [b; v] ->
       (forall p' b' v', p' ∈ Py.split "," obsmode -> Py.split "#" p' = [b'; v'] ->
          Py.upper (b' +:+ "#") = Py.upper (b +:+ "#") -> p' = p) ->
       ps !! Py.upper (b +:+ "#") = Some (PStr v)) /\
    params (Path_init obsmode ps) = ps.
Proof.
  intros Hone. unfold keywords.
  set (T := list_to_set (Py.split "," obsmode) : gset string).
  set (plist := filter (fun k => Py.has_char "#" k = true)
                       (set_iter (Py.split "," obsmode))).
  assert (HT : forall p, p ∈ T <-> p ∈ Py.split "," obsmode)
    by (intros p; apply elem_of_list_to_set).
  assert (Hpl : forall p, p ∈ plist <-> Py.has_char "#" p = true /\ p ∈ T).
  { intros p. unfold plist.
    rewrite list_elem_of_filter, (set_iter_perm (Py.split "," obsmode)), elem_of_elements.
    done. }
  destruct (param_loop_inv T plist [] (T, ∅)) as ([kwdset ps] & Hrun & HS & Hps & Hdom).
  { simpl. apply NoDup_filter. rewrite (set_iter_perm (Py.split "," obsmode)).
    apply NoDup_elements. }
  { intros p [Hh Hp]%Hpl. split; [done|]. apply Hone; [by apply HT|done]. }
  { apply params_inv_init. }
  simpl in *. exists kwdset, ps. split; [done|].
  assert (Hk : forall k, k ∈ kwdset <->
       (k ∈ Py.split "," obsmode /\ Py.has_char "#" k = false) \/
       (exists p b v, p ∈ Py.split "," obsmode /\ Py.split "#" p = [b; v] /\
                      k = b +:+ "#")).
  { intros k. rewrite HS. split.
    - intros [[Hk Hn]|(p & b & v & [_ Hp]%Hpl & Hs & ->)].
      + left. split; [by apply HT|]. destruct (Py.has_char "#" k) eqn:Hc; [|done].
        destruct Hn. by apply Hpl.
      + right. exists p, b, v. split; [by apply HT|done].
    - intros [[Hk Hn]|(p & b & v & Hp & Hs & ->)].
      + left. split; [by apply HT|]. intros [Hc _]%Hpl. congruence.
      + right. exists p, b, v. split; [|done]. apply Hpl. split; [|by apply HT].
        by eapply split_pair_has_char. }
  split; [exact Hk|]. split; [|split; [|split; [|done]]].
  - intros p b v Hp Hs Hv [[_ Hc]|(p' & b' & v' & _ & Hs' & ->)]%Hk.
    + pose proof (split_pair_has_char _ _ _ _ Hs). congruence.
    + pose proof (split_base _ _ _ _ Hs') as Hb. rewrite Hs in Hb. by injection Hb as _ ->.
  - intros K x (p & b & v & [_ Hp]%Hpl & Hs & HK)%Hps. exists p, b, v.
    split; [by apply HT|done].
  - intros p b v Hp Hs Huniq.
    assert (p ∈ plist) as Hin.
    { apply Hpl. split; [by eapply split_pair_has_char|by apply HT]. }
    destruct (Hdom p b v Hin Hs) as [x Hx]. rewrite Hx.
    destruct (Hps _ _ Hx) as (p' & b' & v' & [_ Hp']%Hpl & Hs' & HK & ->).
    assert (p' = p) as -> by (apply (Huniq p' b' v'); [by apply HT|done|done]).
    rewrite Hs in Hs'. by injection Hs' as _ <-.
Qed.

Lemma keywords_parameterized_witness :
  exists kwdset ps,
    @keywords Demo.acs_world "acs,wfc1,fr388n#4000" = Ok (kwdset, ps) /\
    "fr388n#" ∈ kwdset /\ ("fr388n#4000" ∉ kwdset) /\
    ps !! "FR388N#" = Some (PStr "4000").
Proof.
  assert (Hall : forall p, p ∈ Py.split "," "acs,wfc1,fr388n#4000" ->
                 p = "acs" \/ p = "wfc1" \/ p = "fr388n#4000").
  { intros p Hp.
    change (Py.split "," "acs,wfc1,fr388n#4000") with ["acs"; "wfc1"; "fr388n#4000"] in Hp.
    rewrite !elem_of_cons, elem_of_nil in Hp. tauto. }
  destruct (@keywords_parameterized Demo.acs_world "acs,wfc1,fr388n#4000")
    as (kwdset & ps & Hk & Hin & Hraw & _ & Hval & _).
  { intros p [->|[->| ->]]%Hall Hc.
    - discriminate Hc.
    - discriminate Hc.
    - exists "fr388n", "4000". reflexivity. }
  exists kwdset, ps. split; [exact Hk|]. split; [|split].
  - apply Hin. right. exists "fr388n#4000", "fr388n", "4000".
    split; [in_list|split; reflexivity].
  - apply (Hraw _ "fr388n" "4000"); [in_list|reflexivity|discriminate].
  - apply (Hval "fr388n#4000" "fr388n" "4000"); [in_list|reflexivity|].
    intros p' b' v' [->|[->| ->]]%Hall Hs' _; try discriminate Hs'. reflexivity.
Defined.

(** A token with two [#] makes [traverse] raise, and of two tokens whose
    bases differ in case only one value is kept. *)
Lemma keywords_counterexample :
  @traverse Demo.acs_world Demo.acs_graph "acs,x#1#2" false
    = Raise (ValueError "too many values to unpack") /\
  exists kwdset ps,
    @keywords Demo.acs_world "a#1,A#2" = Ok (kwdset, ps) /\
    Py.upper "a#" = "A#" /\ ps !! "A#" = Some (PStr "2") /\ ps !! "A#" <> Some (PStr "1").
Proof.
  split; [vm_compute; reflexivity|].
  eexists _, _. split; [vm_compute; reflexivity|]. split; [reflexivity|].
  split; [vm_compute; reflexivity|]. vm_compute. discriminate.
Qed.

(** ** Prefixes *)

Lemma startswith_inv p s : Py.startswith p s = true -> exists r, s = p +:+ r.
Proof.
  revert s. induction p as [|a p IH]; intros s; simpl.
  - intros _. by exists s.
  - destruct s as [|b s]; [done|]. destruct (decide (a = b)) as [->|]; [|done].
    intros [r ->]%IH. by exists r.
Qed.

Lemma startswith_head a p b s : a <> b -> Py.startswith (String a p) (String b s) = false.
Proof. intros H. simpl. by rewrite decide_False. Qed.

(** ** Rendering and suffixes *)

Lemma render_cons k ks : render (k :: ks) = "," +:+ k +:+ render ks.
Proof. reflexivity. Qed.

Lemma endswith_unfold suf s :
  Py.endswith suf s
  = bool_decide (s = suf) ||
    match s with EmptyString => false | String _ s' => Py.endswith suf s' end.
Proof. by destruct s. Qed.

Lemma endswith_app x j : Py.endswith j (x +:+ j) = true.
Proof.
  induction x as [|c x IH].
  - rewrite sapp_nil_l, endswith_unfold. by rewrite bool_decide_eq_true_2.
  - rewrite sapp_cons, endswith_unfold, IH. by rewrite orb_true_r.
Qed.

Lemma has_char_head c s : Py.has_char c (String c s) = true.
Proof. simpl. by rewrite decide_True. Qed.

(** ** process *)

Lemma rstrip_nul_idemp s : Np.rstrip_nul (Np.rstrip_nul s) = Np.rstrip_nul s.
Proof.
  induction s as [|c s IH]; [done|]. simpl.
  destruct (Np.rstrip_nul s) as [|c' r] eqn:Hr.
  - destruct (decide (c = Ascii.zero)) as [Hc|Hc]; [done|]. simpl. by rewrite decide_False.
  - simpl in *. by rewrite IH.
Qed.

Lemma rstrip_nul_fixed c s :
  Np.rstrip_nul (String c s) = String c s ->
  Np.rstrip_nul s = s /\ (s = EmptyString -> c <> Ascii.zero).
Proof.
  simpl. destruct (Np.rstrip_nul s) as [|c' r] eqn:Hr.
  - destruct (decide (c = Ascii.zero)) as [Hc|Hc]; [done|]. by intros [= <-].
  - intros [= <-]. split; [done|]. by intros [=].
Qed.

(** Joining two strings that end in no NUL gives one. *)
Lemma rstrip_nul_app p t :
  Np.rstrip_nul p = p -> Np.rstrip_nul t = t -> Np.rstrip_nul (p +:+ t) = p +:+ t.
Proof.
  intros Hp Ht. induction p as [|c p IH]; [by rewrite sapp_nil_l|].
  apply rstrip_nul_fixed in Hp as [Hp Hc]. rewrite sapp_cons. simpl.
  rewrite (IH Hp). destruct (p +:+ t) as [|c' r] eqn:Hpt; [|done].
  destruct p; [|by rewrite sapp_cons in Hpt]. by rewrite decide_False by (by apply Hc).
Qed.

Lemma rstrip_nul_head s :
  Py.startswith "," s = true -> Py.startswith "," (Np.rstrip_nul s) = true.
Proof.
  intros [s' ->]%startswith_inv. change ("," +:+ s') with (String "," s'). simpl.
  by destruct (Np.rstrip_nul s').
Qed.

(** One round of the loop of [process], on one string. *)
Lemma strip_snoc junk jk s :
  strip (junk ++ [jk]) s
  = Np.rstrip_nul (Py.replace (strip junk s) (junk_pattern jk).1 (junk_pattern jk).2).
Proof. unfold strip. rewrite fold_left_app. simpl. by destruct (junk_pattern jk). Qed.

Lemma strip_fixed junk s : Np.rstrip_nul (strip junk s) = strip junk s.
Proof.
  induction junk as [|jk junk _] using rev_ind.
  - apply rstrip_nul_idemp.
  - rewrite strip_snoc. apply rstrip_nul_idemp.
Qed.

(** On a list that is not empty the loop keeps an array of strings. *)
Lemma remove_junk_loop junk : forall l,
  l <> [] ->
  for_each (fun a jk => let '(j, r) := junk_pattern jk in Np.char_replace a j r)
           junk (Np.StrArray l)
  = Ok (Np.StrArray
          (fold_left
             (fun s jk => let '(j, r) := junk_pattern jk in Np.rstrip_nul (Py.replace s j r))
             junk <$> l)).
Proof.
  induction junk as [|jk junk IH]; intros l Hl; simpl.
  - by rewrite list_fmap_id.
  - destruct (junk_pattern jk) as [j r] eqn:Hjk. simpl.
    destruct l as [|s l]; [done|]. simpl. rewrite IH by done. simpl.
    do 3 f_equal. clear Hl IH. induction l as [|a l IHl]; simpl; [done|by rewrite IHl].
Qed.

Lemma remove_junk_nonempty junk obsmodes :
  obsmodes <> [] -> remove_junk junk obsmodes = Ok (Np.StrArray (strip junk <$> obsmodes)).
Proof.
  intros Hne. unfold remove_junk, Np.array_str. rewrite remove_junk_loop by (by destruct obsmodes).
  by rewrite <- list_fmap_compose.
Qed.

(** On the empty list the first replacement gives an array of floats and
    the second one raises. *)
Lemma remove_junk_empty junk :
  remove_junk junk []
  = match junk with
    | [] => Ok (Np.StrArray [])
    | [_] => Ok Np.FloatArray
    | _ :: _ :: _ => Raise (TypeError "string operation on non-string array")
    end.
Proof.
  unfold remove_junk. destruct junk as [|j1 [|j2 junk]]; simpl; [done| |].
  - by destruct (junk_pattern j1).
  - by destruct (junk_pattern j1), (junk_pattern j2).
Qed.

Lemma process_nonempty junk prefix obsmodes :
  obsmodes <> [] ->
  process junk prefix obsmodes
  = Ok match prefix with
       | Some p => p :: ((fun s => Np.rstrip_nul (Np.rstrip_nul p +:+ strip junk s)) <$> obsmodes)
       | None => strip junk <$> obsmodes
       end.
Proof.
  intros Hne. unfold process. rewrite remove_junk_nonempty by done. simpl.
  destruct prefix as [p|]; [|done]. simpl. by rewrite <- list_fmap_compose.
Qed.

Lemma process_empty junk prefix :
  process junk prefix []
  = if decide (2 <= length junk)%nat
    then Raise (TypeError "string operation on non-string array")
    else Ok match prefix with Some p => [p] | None => [] end.
Proof.
  unfold process. rewrite remove_junk_empty.
  destruct junk as [|j1 [|j2 junk]].
  - rewrite decide_False by (simpl; lia). by destruct prefix.
  - rewrite decide_False by (simpl; lia). by destruct prefix.
  - rewrite decide_True by (simpl; lia). done.
Qed.

Lemma process_Ok junk prefix obsmodes out :
  process junk prefix obsmodes = Ok out ->
  out = match prefix with
        | Some p => p :: ((fun s => Np.rstrip_nul (Np.rstrip_nul p +:+ strip junk s)) <$> obsmodes)
        | None => strip junk <$> obsmodes
        end.
Proof.
  destruct obsmodes as [|c obsmodes].
  - rewrite process_empty. destruct (decide _); [done|]. intros [= <-]. by destruct prefix.
  - rewrite process_nonempty by done. by intros [= <-].
Qed.

(** With a prefix that ends in no NUL, [process] gives the prefix followed
    by the prefix before each string that it gives without. *)
Lemma process_prefix junk p obsmodes :
  Np.rstrip_nul p = p ->
  process junk (Some p) obsmodes
  = match process junk None obsmodes with
    | Ok out => Ok (p :: ((fun s => p +:+ s) <$> out))
    | Raise x => Raise x
    end.
Proof.
  intros Hp. destruct obsmodes as [|c obsmodes].
  - rewrite !process_empty. by destruct (decide _).
  - rewrite !process_nonempty by done. do 2 f_equal.
    rewrite <- list_fmap_compose. apply list_fmap_ext. intros _ s _. simpl.
    rewrite Hp. apply rstrip_nul_app; [done|apply strip_fixed].
Qed.

(** ** recurse *)

Lemma Node_iter_Ok `{World} d l es :
  Node_iter d l = Ok es -> es = dict_values (edges (heap l)) /\ d <> O.
Proof. destruct d; [done|]. by intros [= <-]. Qed.

Section Recurse.
Context `{W : World}.
Variables junk excl : list string.

Lemma candidate_extend so_far e s :
  kwd e ∉ excl -> (exists l, e ∈ dict_values (edges (heap l))) ->
  candidate junk excl (so_far +:+ "," +:+ kwd e) s -> candidate junk excl so_far s.
Proof.
  intros He [l Hl] (ks & kl & -> & Hks & Hkl). exists (kwd e :: ks), kl.
  split; [|split; [|done]].
  - simpl app. rewrite render_cons. by rewrite !sapp_assoc.
  - constructor; [|done]. split; [done|]. by exists l, e.
Qed.

Lemma candidate_further so_far e :
  kwd e ∉ excl -> kwd e ∉ junk -> (exists l, e ∈ dict_values (edges (heap l))) ->
  candidate junk excl so_far (so_far +:+ "," +:+ kwd e).
Proof.
  intros He Hj [l Hl]. exists [], (kwd e). split; [|split; [|done]].
  - simpl app. rewrite render_cons. simpl render. by rewrite sapp_nil_r.
  - constructor; [|done]. split; [done|]. by exists l, e.
Qed.

Lemma recurse_candidates depth : forall node so_far obsmodes out,
  recurse (Some junk) (Some excl) depth node so_far obsmodes = Ok out ->
  exists new, out = obsmodes ++ new /\
              Forall (candidate junk excl (default EmptyString so_far)) new.
Proof.
  induction depth as [|d IHd]; intros node so_far obsmodes out; [done|].
  simpl. destruct node as [l|]; [|intros [= <-]; exists []; by rewrite app_nil_r].
  intros (es0 & [-> _]%Node_iter_Ok & Hloop)%bind_Ok. revert Hloop.
  set (sf := default EmptyString so_far).
  assert (Hes : forall e, e ∈ dict_values (edges (heap l)) ->
                          exists l', e ∈ dict_values (edges (heap l'))) by eauto.
  revert obsmodes out Hes. generalize (dict_values (edges (heap l))).
  intros es. induction es as [|e es IHes]; intros obsmodes out Hes; simpl.
  - intros [= <-]. exists []. by rewrite app_nil_r.
  - assert (Hes' : forall e', e' ∈ es -> exists l', e' ∈ dict_values (edges (heap l')))
      by (intros e' He'; apply Hes; by right).
    assert (He : exists l', e ∈ dict_values (edges (heap l'))) by (apply Hes; by left).
    destruct (bool_decide (kwd e ∈ excl)) eqn:Hx; simpl.
    + apply IHes, Hes'.
    + apply bool_decide_eq_false in Hx.
      intros (acc1 & Hrec & Hrest)%bind_Ok.
      apply IHd in Hrec as (new1 & -> & Hnew1). simpl in Hnew1.
      apply IHes in Hrest as (new2 & -> & Hnew2); [|done].
      assert (Hnew1' : Forall (candidate junk excl sf) new1).
      { eapply Forall_impl; [exact Hnew1|]. intros s. by apply candidate_extend. }
      destruct (bool_decide (kwd e ∈ junk)) eqn:Hj.
      * exists (new1 ++ new2). split; [by rewrite app_assoc|]. by apply Forall_app.
      * apply bool_decide_eq_false in Hj.
        exists ((sf +:+ "," +:+ kwd e) :: new1 ++ new2).
        split; [by rewrite <- !app_assoc|].
        constructor; [by apply candidate_further|by apply Forall_app].
Qed.
End Recurse.

(** ** The rule table *)

Lemma rules_dict_lookup key r : rules_dict !! key = Some r -> (key, r) ∈ rules_list.
Proof. apply elem_of_list_to_map_2. Qed.

Lemma rules_dict_forall (P : rule -> bool) key r :
  forallb (fun kr => P kr.2) rules_list = true -> rules_dict !! key = Some r -> P r = true.
Proof.
  intros Hall Hr%rules_dict_lookup. rewrite forallb_forall in Hall.
  apply list_elem_of_In in Hr. exact (Hall _ Hr).
Qed.

Lemma merged_Ok field rules key l :
  merged field rules key = Ok l <->
  exists d r, rules !! "default" = Some d /\ rules !! key = Some r /\ l = field d ++ field r.
Proof.
  unfold merged, rules_getitem. split.
  - destruct (rules !! "default") as [d|]; [|done].
    destruct (rules !! key) as [r|]; [|done]. intros [= <-]. by exists d, r.
  - intros (d & r & -> & -> & ->). done.
Qed.

Lemma rules_dict_junk key jks :
  merged junk rules_dict key = Ok jks -> clean_junk jks = true.
Proof.
  intros (d & r & Hd & Hr & ->)%merged_Ok. unfold clean_junk.
  rewrite forallb_app.
  apply (rules_dict_forall (fun r => clean_junk (junk r))) in Hd, Hr;
    try (vm_compute; reflexivity).
  unfold clean_junk in Hd, Hr. by rewrite Hd, Hr.
Qed.

(** ** get_obsmodes *)

Lemma get_obsmodes_in_Ok `{World} rules g obsmode prefix out :
  get_obsmodes_in rules g obsmode prefix = Ok out <->
  exists key jks excl p l obs,
    obsrules_key rules obsmode = Ok key /\
    merged junk rules key = Ok jks /\
    merged exclude rules key = Ok excl /\
    check_excluded excl obsmode = Ok tt /\
    traverse g obsmode true = Ok p /\
    Graph_getitem g (offset p) = Ok l /\
    recurse (Some jks) (Some excl) recursion_limit (Some l) None [] = Ok obs /\
    process jks (if prefix then Some obsmode else None) obs = Ok out.
Proof.
  unfold get_obsmodes_in. split.
  - intros (key & Hk & (jks & Hj & (excl & Hx & ([] & Hc & (p & Hp & (l & Hl &
      (obs & Ho & Hout)%bind_Ok)%bind_Ok)%bind_Ok)%bind_Ok)%bind_Ok)%bind_Ok)%bind_Ok.
    by exists key, jks, excl, p, l, obs.
  - intros (key & jks & excl & p & l & obs & Hk & Hj & Hx & Hc & Hp & Hl & Ho & Hout).
    rewrite Hk. simpl. rewrite Hj. simpl. rewrite Hx. simpl. rewrite Hc. simpl.
    rewrite Hp. simpl. rewrite Hl. simpl. rewrite Ho. exact Hout.
Qed.

Lemma check_excluded_raise excl obsmode o :
  o ∈ Py.split "," obsmode -> o ∈ excl ->
  check_excluded excl obsmode
  = u ← unicode obsmode;
    Raise (ObsmodeError ("Entered obsmode includes excluded parameters: " +:+ u)).
Proof.
  unfold check_excluded. generalize (Py.split "," obsmode). intros l Hl Hx.
  induction l as [|o' l IH]; [by apply elem_of_nil in Hl|]. simpl.
  destruct (bool_decide (o' ∈ excl)) eqn:Ho.
  - unfold unicode. by destruct (Py.is_ascii obsmode).
  - apply bool_decide_eq_false in Ho. simpl. apply IH.
    apply elem_of_cons in Hl as [->|Hl]; done.
Qed.

(** ** The leading comma *)

Lemma startswith_comma s : Py.startswith "," s = true <-> exists s', s = String "," s'.
Proof.
  split.
  - intros [r ->]%startswith_inv. by exists r.
  - intros [s' ->]. reflexivity.
Qed.

Lemma replace_head jk s :
  Py.has_char "," jk = false -> Py.startswith "," s = true ->
  Py.startswith "," (let '(j, r) := junk_pattern jk in Py.replace s j r) = true.
Proof.
  intros Hjk [s' ->]%startswith_comma. unfold junk_pattern.
  destruct (decide (jk = EmptyString)) as [->|Hne].
  - unfold Py.replace.
    change (Py.replace_from ",," "," (String "," s') 0)
      with (if Py.startswith ",," (String "," s')
            then "," +:+ Py.replace_from ",," "," s' (Nat.pred (String.length ",,"))
            else String "," (Py.replace_from ",," "," s' 0)).
    by destruct (Py.startswith ",," (String "," s')).
  - destruct jk as [|c jk']; [done|].
    assert (c <> ","%char) as Hc by (intros ->; by rewrite has_char_head in Hjk).
    unfold Py.replace. rewrite sapp_cons.
    change (Py.replace_from ?o ?n (String "," s') 0)
      with (if Py.startswith o (String "," s')
            then n +:+ Py.replace_from o n s' (Nat.pred (String.length o))
            else String "," (Py.replace_from o n s' 0)).
    by rewrite startswith_head.
Qed.

Lemma strip_head jks s :
  clean_junk jks = true -> Py.startswith "," s = true ->
  Py.startswith "," (strip jks s) = true.
Proof.
  unfold clean_junk, strip. intros Hj Hs%rstrip_nul_head. revert Hj Hs.
  generalize (Np.rstrip_nul s). clear s.
  induction jks as [|jk jks IH]; intros s Hj Hs; [done|].
  simpl in Hj. apply andb_prop in Hj as [Hjk%negb_true_iff Hj]. simpl.
  apply IH; [done|]. pose proof (replace_head jk s Hjk Hs) as Hr.
  destruct (junk_pattern jk) as [j r]. by apply rstrip_nul_head.
Qed.

Lemma candidate_head `{World} jks excl s :
  candidate jks excl EmptyString s -> Py.startswith "," s = true.
Proof.
  intros (ks & kl & -> & _). rewrite sapp_nil_l.
  destruct ks; reflexivity.
Qed.

(** C10. Without a prefix every string that [get_obsmodes] returns begins
    with a comma. *)
Theorem get_obsmodes_leading_comma `{World} (g : Graph) (obsmode : string)
    (out : list string) :
  get_obsmodes g obsmode false = Ok out ->
  forall s, s ∈ out -> Py.startswith "," s = true.
Proof.
  intros (key & jks & excl & p & l & obs & _ & Hj%rules_dict_junk & _ & _ & _ & _ &
          (new & -> & Hnew)%recurse_candidates & ->%process_Ok)%get_obsmodes_in_Ok s.
  intros (c & -> & Hc)%list_elem_of_fmap. apply strip_head; [done|].
  rewrite Forall_forall in Hnew. eapply candidate_head, Hnew, Hc.
Qed.

Lemma get_obsmodes_leading_comma_witness :
  exists out, @get_obsmodes Demo.acs_world Demo.acs_graph "acs,wfc1" false = Ok out /\
              out = [",f555w"; ",f555w,pol_v"] /\
              forall s, s ∈ out -> Py.startswith "," s = true.
Proof.
  assert (exists out, @get_obsmodes Demo.acs_world Demo.acs_graph "acs,wfc1" false = Ok out
                      /\ out = [",f555w"; ",f555w,pol_v"]) as (out & Hout & Heq)
    by (eexists; split; vm_compute; reflexivity).
  exists out. split; [exact Hout|]. split; [exact Heq|].
  exact (@get_obsmodes_leading_comma Demo.acs_world Demo.acs_graph "acs,wfc1" out Hout).
Defined.

(** ** Where process goes wrong *)

(** C7, at a failing input.  On the graph whose node [B] leads on through
    two empty keywords and [x], [recurse] records the candidate [,,,x];
    the single pass of [str.replace] for the junk keyword [""] turns it
    into [,,x], so the string that [get_obsmodes] returns still holds an
    empty keyword.  And on the scenario graph [get_obsmodes("acs,wfc2")]
    has no candidate: the second [numpy.char.replace] then raises
    [TypeError], with or without a prefix, so no list with the bare
    prefix is returned. *)
Theorem process_keeps_empty_keyword :
  @recurse Demo.blank_world (Some [""; "None"; "default"; "wfc1"]) (Some ["aper#"; "wfc2"])
           50 (Some 3%positive) None [] = Ok [",,,x"] /\
  process [""; "None"; "default"; "wfc1"] None [",,,x"] = Ok [",,x"] /\
  @get_obsmodes Demo.blank_world Demo.blank_graph "acs,wfc1" false = Ok [",,x"] /\
  Py.split "," ",,x" = [""; ""; "x"] /\
  EmptyString ∈ [""; "None"; "default"; "wfc1"] /\
  @recurse Demo.acs_world (Some [""; "None"; "default"; "wfc2"]) (Some ["aper#"; "wfc1"])
           50 (Some 2%positive) None [] = Ok [] /\
  @get_obsmodes Demo.acs_world Demo.acs_graph "acs,wfc2" true
  = Raise (TypeError "string operation on non-string array").
Proof.
  split; [vm_compute; reflexivity|]. split; [vm_compute; reflexivity|].
  split; [vm_compute; reflexivity|]. split; [reflexivity|].
  split; [apply list_elem_of_here|]. split; vm_compute; reflexivity.
Qed.

(** C1, at a failing input.  Through the edges [wfdefault] and [c2] the
    candidate [,wfdefault,c2] arises, neither keyword being excluded, and
    the replacement of [default,] by nothing turns it into [,wfc2]: a
    string that [get_obsmodes("acs,wfc1")] returns has the excluded
    keyword [wfc2] among its keywords. *)
Theorem get_obsmodes_mangled_keyword :
  @recurse Demo.mangle_world (Some [""; "None"; "default"; "wfc1"]) (Some ["aper#"; "wfc2"])
           50 (Some 3%positive) None [] = Ok [",wfdefault"; ",wfdefault,c2"] /\
  @get_obsmodes Demo.mangle_world Demo.mangle_graph "acs,wfc1" false
    = Ok [",wfdefault"; ",wfc2"] /\
  merged exclude rules_dict "acs,wfc1" = Ok ["aper#"; "wfc2"] /\
  Py.split "," ",wfc2" = [""; "wfc2"] /\
  "wfc2" ∈ Py.split "," ",wfc2".
Proof.
  split; [vm_compute; reflexivity|]. split; [vm_compute; reflexivity|].
  split; [vm_compute; reflexivity|]. split; [reflexivity|].
  apply list_elem_of_further, list_elem_of_here.
Qed.

(** ** The checks of get_obsmodes *)

Lemma merged_fields rules key excl :
  merged exclude rules key = Ok excl -> exists jks, merged junk rules key = Ok jks.
Proof.
  intros (d & r & Hd & Hr & _)%merged_Ok. exists (junk d ++ junk r).
  apply merged_Ok. by exists d, r.
Qed.

(** C8. When the key of the obsmode is found in the rule table and one of
    the comma-separated keywords of the obsmode is in the merged exclude
    list, [get_obsmodes] raises [ObsmodeError] with a message that ends in
    the obsmode (a [str] of ASCII characters, as [unicode] requires).  The
    outcome is the same for every graph and every store: the check comes
    before the traversal and the enumeration. *)
Theorem get_obsmodes_excluded_input `{World} (rules : gmap string rule) (g : Graph)
    (obsmode : string) (prefix : bool) (key : string) (excl : list string) (o : string) :
  obsrules_key rules obsmode = Ok key ->
  merged exclude rules key = Ok excl ->
  o ∈ Py.split "," obsmode -> o ∈ excl ->
  Py.is_ascii obsmode = true ->
  get_obsmodes_in rules g obsmode prefix
  = Raise (ObsmodeError ("Entered obsmode includes excluded parameters: " +:+ obsmode)).
Proof.
  intros Hkey Hexcl Ho Hx Hascii. destruct (merged_fields _ _ _ Hexcl) as [jks Hjks].
  unfold get_obsmodes_in. rewrite Hkey. simpl. rewrite Hjks. simpl. rewrite Hexcl. simpl.
  rewrite (check_excluded_raise excl obsmode o Ho Hx). unfold unicode. by rewrite Hascii.
Qed.

(** With an entry for ["aper#"] added to the table, the obsmode ["aper#"]
    is refused on a graph that has no top node. *)
Lemma get_obsmodes_excluded_input_witness :
  @get_obsmodes_in Demo.acs_world (<["aper#" := mkRule [] []]> rules_dict)
                   (mkGraph ∅ None) "aper#" false
  = Raise (ObsmodeError "Entered obsmode includes excluded parameters: aper#") /\
  @traverse Demo.acs_world (mkGraph ∅ None) "aper#" true = Raise (AttributeError "top").
Proof.
  split.
  - apply (@get_obsmodes_excluded_input Demo.acs_world _ _ "aper#" false "aper#"
             ["aper#"] "aper#").
    + vm_compute. reflexivity.
    + vm_compute. reflexivity.
    + vm_compute. apply list_elem_of_here.
    + apply list_elem_of_here.
    + reflexivity.
  - vm_compute. reflexivity.
Defined.

(** ** The obsmodes that rules_dict accepts *)

Lemma substring_app s t : String.substring 0 (String.length s) (s +:+ t) = s.
Proof.
  induction s as [|c s IH].
  - by destruct t.
  - rewrite sapp_cons. simpl. by rewrite IH.
Qed.

Lemma sapp_prefix s t k :
  s +:+ t = k -> s = String.substring 0 (String.length k - String.length t) k.
Proof.
  intros <-. rewrite sapp_length.
  replace (String.length s + String.length t - String.length t)%nat
    with (String.length s) by lia.
  by rewrite substring_app.
Qed.

(** With the table of the module the exclusion check never fails: no key
    of [rules_dict] holds a keyword that its own entry or the default
    entry excludes. *)
Lemma rules_dict_accepts obsmode key :
  obsrules_key rules_dict obsmode = Ok key ->
  exists jks excl,
    merged junk rules_dict key = Ok jks /\ merged exclude rules_dict key = Ok excl /\
    check_excluded excl obsmode = Ok tt.
Proof.
  unfold obsrules_key.
  destruct (bool_decide (obsmode ∈ dom rules_dict)) eqn:H1.
  - intros [= <-]. apply bool_decide_eq_true, elem_of_dom in H1 as [r Hr].
    apply rules_dict_lookup in Hr. unfold rules_list in Hr.
    repeat (apply elem_of_cons in Hr as [[= -> ->]|Hr];
            [eexists _, _; split; [|split]; vm_compute; reflexivity|]).
    by apply elem_of_nil in Hr.
  - destruct (bool_decide (obsmode +:+ ",*" ∈ dom rules_dict)) eqn:H2.
    + intros [= <-]. apply bool_decide_eq_true, elem_of_dom in H2 as [r Hr].
      apply rules_dict_lookup in Hr. unfold rules_list in Hr.
      repeat (apply elem_of_cons in Hr as [[= Hk ->]|Hr];
              [pose proof (sapp_prefix _ _ _ Hk) as Hs; vm_compute in Hs; subst obsmode;
               first [discriminate Hk
                     | eexists _, _; split; [|split]; vm_compute; reflexivity]|]).
      by apply elem_of_nil in Hr.
    + unfold unicode. by destruct (Py.is_ascii obsmode).
Qed.

(** ** A walk that matches nothing *)

Lemma offset_assignments_none `{World} kwdset es : forall seen,
  (forall e, e ∈ es -> kwd e ∉ kwdset \/ kwd e = "default") ->
  offset_assignments kwdset seen es = [].
Proof.
  induction es as [|e es IH]; intros seen Hes; [done|]. simpl.
  rewrite IH by (intros e' He'; apply Hes; by right).
  unfold offset_of, counts.
  destruct (Hes e) as [Hn| ->]; [by left| |].
  - by rewrite (bool_decide_eq_false_2 _ Hn).
  - rewrite (bool_decide_eq_false_2 ("default" <> "default")) by (by intros []).
    by rewrite andb_false_r.
Qed.

Lemma get_obsmodes_in_no_start `{World} rules g obsmode prefix key jks excl p :
  obsrules_key rules obsmode = Ok key ->
  merged junk rules key = Ok jks -> merged exclude rules key = Ok excl ->
  check_excluded excl obsmode = Ok tt ->
  traverse g obsmode true = Ok p -> offset p = None ->
  get_obsmodes_in rules g obsmode prefix = Raise (KeyError None).
Proof.
  intros Hkey Hj Hx Hc Hp Ho. unfold get_obsmodes_in. rewrite Hkey. simpl.
  rewrite Hj. simpl. rewrite Hx. simpl. rewrite Hc. simpl. rewrite Hp. simpl.
  by rewrite Ho.
Qed.

(** C9. When the walk that [get_obsmodes] makes in partial mode takes no
    edge whose keyword is a requested keyword other than [default], the
    [offset] of its path is [None], and [get_obsmodes] raises the
    [KeyError] of the lookup [self.nodes[None]], not an [ObsmodeError]. *)
Theorem get_obsmodes_no_offset `{World} (g : Graph) (obsmode : string) (prefix : bool)
    (key : string) (p : Path) (kwdset : gset string) (ps : gmap string param_value) :
  obsrules_key rules_dict obsmode = Ok key ->
  traverse g obsmode true = Ok p ->
  keywords obsmode = Ok (kwdset, ps) ->
  (forall e, e ∈ edgelist p -> kwd e ∉ kwdset \/ kwd e = "default") ->
  offset p = None /\
  get_obsmodes g obsmode prefix = Raise (KeyError None) /\
  forall msg, get_obsmodes g obsmode prefix <> Raise (ObsmodeError msg).
Proof.
  intros Hkey Hp Hk Hnone.
  destruct (traverse_inv g obsmode true p Hp)
    as (kwdset' & ps' & st & Hk' & [_ _ _ Hw Ho _] & Hst).
  rewrite Hk in Hk'. injection Hk' as <- <-. rewrite <- Hst in Hw, Ho.
  rewrite (offset_assignments_none kwdset (edgelist p) [] Hnone) in Hw.
  rewrite Hw in Ho. simpl in Ho.
  destruct (rules_dict_accepts obsmode key Hkey) as (jks & excl & Hj & Hx & Hc).
  assert (get_obsmodes g obsmode prefix = Raise (KeyError None)) as Hget
    by exact (get_obsmodes_in_no_start _ _ _ _ _ _ _ _ Hkey Hj Hx Hc Hp Ho).
  split; [done|]. split; [done|]. intros msg. by rewrite Hget.
Qed.

Lemma get_obsmodes_no_offset_witness :
  exists p, @traverse Demo.acs_world Demo.acs_graph "nicmos,1" true = Ok p /\
            kwd <$> edgelist p = ["default"] /\
            offset p = None /\
            @get_obsmodes Demo.acs_world Demo.acs_graph "nicmos,1" false
              = Raise (KeyError None).
Proof.
  assert (exists p, @traverse Demo.acs_world Demo.acs_graph "nicmos,1" true = Ok p /\
                    kwd <$> edgelist p = ["default"]) as (p & Hp & He)
    by (eexists; split; vm_compute; reflexivity).
  assert (exists kwdset ps, @keywords Demo.acs_world "nicmos,1" = Ok (kwdset, ps))
    as (kwdset & ps & Hk) by (eexists _, _; vm_compute; reflexivity).
  exists p. split; [exact Hp|]. split; [exact He|].
  destruct (@get_obsmodes_no_offset Demo.acs_world Demo.acs_graph "nicmos,1" false
              "nicmos,1" p kwdset ps) as (Ho & Hg & _).
  - vm_compute. reflexivity.
  - exact Hp.
  - exact Hk.
  - intros e He'. right.
    assert (kwd e ∈ kwd <$> edgelist p) as Hin by (by apply list_elem_of_fmap_2).
    rewrite He in Hin. by apply list_elem_of_singleton in Hin.
  - split; [exact Ho|exact Hg].
Defined.

(** ** Nodes, once more *)

(** X1. [add_edge] keeps a node well formed: after it the edge set is the
    key set of the edges and every edge is stored under its own keyword;
    the new edge is found under its keyword, replacing an earlier edge
    with that keyword, and the edges under other keywords and the name
    stay as they were. *)
Theorem add_edge_keeps_node (n : Node) (e : Edge) :
  Node_built n ->
  Node_built (add_edge n e) /\
  edgeset (add_edge n e) = dom (edges (add_edge n e)) /\
  (forall k e', edges (add_edge n e) !! k = Some e' -> kwd e' = k) /\
  edges (add_edge n e) !! kwd e = Some e /\
  (forall k, k <> kwd e -> edges (add_edge n e) !! k = edges n !! k) /\
  name (add_edge n e) = name n.
Proof.
  intros Hn. assert (Hn' : Node_built (add_edge n e)) by (by constructor).
  split; [done|]. split; [by apply Node_built_edgeset|].
  split; [intros k e'; by apply Node_built_kwd|]. simpl.
  split; [by rewrite lookup_insert_eq|]. split; [|done].
  intros k Hk. by rewrite lookup_insert_ne.
Qed.

Lemma add_edge_keeps_node_witness :
  let n := Demo.node_of "n" [Demo.edge_to "a" None] in
  edges (add_edge n (Demo.edge_to "a" (Some 2%positive))) !! "a"
    = Some (Demo.edge_to "a" (Some 2%positive)) /\
  edgeset (add_edge n (Demo.edge_to "a" (Some 2%positive)))
    = dom (edges (add_edge n (Demo.edge_to "a" (Some 2%positive)))).
Proof.
  intros n.
  destruct (add_edge_keeps_node n (Demo.edge_to "a" (Some 2%positive)))
    as (_ & Hd & _ & Hl & _); [apply node_of_built|].
  split; [exact Hl|exact Hd].
Defined.

Lemma select_edge_raises n kwdset partial count x :
  select_edge n kwdset partial count = Raise x ->
  x = ambiguous \/ exists k, x = KeyError k.
Proof.
  unfold select_edge. destruct (decide (1 < size _)%nat); [intros [= <-]; by left|].
  destruct (decide (size _ = 1%nat)).
  - destruct (elements _) as [|k ?]; [intros [= <-]; right; by eexists|].
    unfold edges_getitem. destruct (edges n !! k); [done|].
    intros [= <-]. right. by eexists.
  - destruct (edges n !! "default"); [|done]. by destruct (negb partial || _).
Qed.

Lemma built_select_edge n kwdset partial count :
  Node_built n ->
  select_edge n kwdset partial count = Raise ambiguous \/
  exists e, select_edge n kwdset partial count = Ok e /\
            (kwd e ∈ kwdset \/ kwd e = "default") /\
            (e = sentinel \/ edges n !! kwd e = Some e).
Proof.
  intros Hn. unfold select_edge.
  destruct (decide (1 < size _)%nat) as [|H1]; [by left|]. right.
  destruct (decide (size _ = 1%nat)) as [H2|H2].
  - destruct (size_1_elem_of _ H2) as [k Hk%leibniz_equiv].
    rewrite Hk, elements_singleton.
    assert (k ∈ edgeset n ∩ kwdset) as [Hke Hkk]%elem_of_intersection
      by (rewrite Hk; by apply elem_of_singleton).
    rewrite (Node_built_edgeset n Hn) in Hke. apply elem_of_dom in Hke as [e He].
    pose proof (Node_built_kwd n k e Hn He) as <-.
    exists e. unfold edges_getitem. rewrite He. split; [done|]. split; [by left|by right].
  - destruct (edges n !! "default") as [d|] eqn:Hd.
    + pose proof (Node_built_kwd n _ d Hn Hd) as Hkd.
      destruct (negb partial || _).
      * exists d. split; [done|]. split; [by right|]. right. by rewrite Hkd.
      * exists sentinel. split; [done|]. split; [by right|by left].
    + exists sentinel. split; [done|]. split; [by right|by left].
Qed.

(** X2. On a node built by [Node(name)] and [add_edge], [select_edge]
    never raises [KeyError]: it raises the ambiguity error or returns an
    edge.  The keyword of a returned edge is a requested keyword or
    [default], and the edge is the sentinel or the node's edge for that
    keyword. *)
Theorem select_edge_built (n : Node) (kwdset : gset string) (partial : bool) (count : Z) :
  Node_built n ->
  (forall k, select_edge n kwdset partial count <> Raise (KeyError k)) /\
  (forall x, select_edge n kwdset partial count = Raise x -> x = ambiguous) /\
  (forall e, select_edge n kwdset partial count = Ok e ->
     (kwd e ∈ kwdset \/ kwd e = "default") /\
     (e = sentinel \/ edges n !! kwd e = Some e)).
Proof.
  intros Hn.
  destruct (built_select_edge n kwdset partial count Hn) as [Hr|(e & He & H1 & H2)].
  - rewrite Hr. split; [by intros k|]. split; [by intros x [= <-]|done].
  - rewrite He. split; [by intros k|]. split; [done|]. by intros e' [= <-].
Qed.

Lemma select_edge_built_witness :
  let n := Demo.node_of "n" [Demo.edge_to "a" None; Demo.edge_to "default" None] in
  (forall k, select_edge n {["x"]} true 1 <> Raise (KeyError k)) /\
  (forall x, select_edge n {["x"]} true 1 = Raise x -> x = ambiguous) /\
  (forall e, select_edge n {["x"]} true 1 = Ok e ->
     (kwd e ∈ ({["x"]} : gset string) \/ kwd e = "default") /\
     (e = sentinel \/ edges n !! kwd e = Some e)).
Proof.
  intros n. exact (select_edge_built n {["x"]} true 1 (node_of_built _ _)).
Defined.

(** ** Graphs *)

(** X3. After [add_node] the node is found under its name by
    [__getitem__], [__contains__] and [get]; what is stored under other
    names is unchanged; and [len] grows by one when the name is new and
    stays when a node of that name is replaced. *)
Theorem add_node_lookup `{World} (g : Graph) (l : ref) :
  Graph_getitem (add_node g l) (Some (name (heap l))) = Ok l /\
  Graph_contains (add_node g l) (Some (name (heap l))) = true /\
  (forall d, Graph_get (add_node g l) (Some (name (heap l))) d = Some l) /\
  (forall nm, nm <> name (heap l) ->
     Graph_getitem (add_node g l) (Some nm) = Graph_getitem g (Some nm) /\
     Graph_contains (add_node g l) (Some nm) = Graph_contains g (Some nm) /\
     forall d, Graph_get (add_node g l) (Some nm) d = Graph_get g (Some nm) d) /\
  len (add_node g l)
    = (if Graph_contains g (Some (name (heap l))) then len g else len g + 1) /\
  top (add_node g l) = top g.
Proof.
  unfold Graph_getitem, Graph_contains, Graph_get, add_node, len. simpl.
  rewrite lookup_insert_eq. split; [done|]. split.
  { apply bool_decide_eq_true, elem_of_dom. rewrite lookup_insert_eq. by eexists. }
  split; [done|]. split.
  - intros nm Hne. rewrite lookup_insert_ne by done. split; [done|]. split; [|done].
    apply bool_decide_ext. rewrite !elem_of_dom. by rewrite lookup_insert_ne.
  - split; [|done]. destruct (nodes g !! name (heap l)) as [l'|] eqn:Hl.
    + rewrite bool_decide_eq_true_2 by (apply elem_of_dom; eauto).
      by rewrite map_size_insert, Hl.
    + rewrite bool_decide_eq_false_2 by (by apply not_elem_of_dom).
      rewrite map_size_insert_None by done. lia.
Qed.

Lemma fold_add_node_lookup `{World} ls : forall g nm l,
  nodes (fold_left add_node ls g) !! nm = Some l <->
  (exists ls1 ls2, ls = ls1 ++ l :: ls2 /\ name (heap l) = nm /\
                   forall l', l' ∈ ls2 -> name (heap l') <> nm) \/
  (nodes g !! nm = Some l /\ forall l', l' ∈ ls -> name (heap l') <> nm).
Proof.
  induction ls as [|l0 ls IH]; intros g nm l; simpl.
  - split.
    + intros Hl. right. split; [done|]. by intros l' ?%elem_of_nil.
    + intros [(ls1 & ls2 & Hnil & _)|[Hl _]]; [by destruct ls1|done].
  - rewrite IH. split.
    + intros [(ls1 & ls2 & -> & Hnm & Hlast)|[Hl Hno]].
      * left. exists (l0 :: ls1), ls2. done.
      * simpl in Hl. destruct (decide (name (heap l0) = nm)) as [Heq|Hne].
        -- rewrite <- Heq, lookup_insert_eq in Hl. injection Hl as <-.
           left. exists [], ls. done.
        -- rewrite lookup_insert_ne in Hl by done. right. split; [done|].
           intros l' [->|Hl']%elem_of_cons; [done|by apply Hno].
    + intros [(ls1 & ls2 & Heq & Hnm & Hlast)|[Hl Hno]].
      * destruct ls1 as [|l1 ls1]; simpl in Heq; injection Heq as -> ->.
        -- right. split; [|done]. simpl. by rewrite <- Hnm, lookup_insert_eq.
        -- left. exists ls1, ls2. done.
      * right. split; [|intros l' Hl'; apply Hno; by right]. simpl.
        rewrite lookup_insert_ne; [done|]. apply Hno. by left.
Qed.

Lemma fold_add_node_len `{World} ls : forall g,
  len (fold_left add_node ls g) <= len g + Z.of_nat (length ls).
Proof.
  induction ls as [|l ls IH]; intros g; simpl fold_left; [simpl; lia|].
  etransitivity; [apply IH|]. unfold len, add_node. simpl nodes.
  rewrite map_size_insert. simpl length. destruct (nodes g !! _); unfold id; lia.
Qed.

(** X4. [Graph(nodes)] for a non-empty list has the first node as [top]
    and holds, under each name, the last listed node of that name; so it
    has at most as many entries as the list, and when no two listed nodes
    share a name the lookup of [top.name], with which [traverse] starts,
    finds [top] itself. *)
Theorem Graph_init_lookup `{World} (ls : list ref) (g : Graph) :
  Graph_init (Some ls) = Ok g ->
  top g = head ls /\
  (forall nm l, nodes g !! nm = Some l <->
     exists ls1 ls2, ls = ls1 ++ l :: ls2 /\ name (heap l) = nm /\
                     forall l', l' ∈ ls2 -> name (heap l') <> nm) /\
  len g <= Z.of_nat (length ls) /\
  (NoDup ((fun l => name (heap l)) <$> ls) ->
     forall t, top g = Some t -> Graph_getitem g (Some (name (heap t))) = Ok t).
Proof.
  unfold Graph_init. destruct ls as [|t ls]; [done|].
  pose proof (fold_add_node_len (t :: ls) (mkGraph ∅ None)) as Hle.
  pose proof (fold_add_node_lookup (t :: ls) (mkGraph ∅ None)) as Hlook.
  set (G := fold_left add_node (t :: ls) (mkGraph ∅ None)) in *.
  intros [= <-]. cbn [top nodes head].
  assert (Hlook' : forall nm l, nodes G !! nm = Some l <->
     exists ls1 ls2, t :: ls = ls1 ++ l :: ls2 /\ name (heap l) = nm /\
                     forall l', l' ∈ ls2 -> name (heap l') <> nm).
  { intros nm l. rewrite Hlook. cbn [nodes]. rewrite lookup_empty.
    split; [intros [?|[? _]]; done|by left]. }
  split; [done|]. split; [exact Hlook'|]. split.
  - unfold len in *. cbn [nodes] in *. rewrite map_size_empty in Hle. lia.
  - intros Hnd t' [= <-]. unfold Graph_getitem. cbn [nodes].
    assert (nodes G !! name (heap t) = Some t) as ->; [|done].
    apply Hlook'. exists [], ls. split; [done|]. split; [done|].
    intros l' Hl' Heq. rewrite fmap_cons in Hnd. apply NoDup_cons in Hnd as [Hnot _].
    apply Hnot. rewrite <- Heq. by apply (list_elem_of_fmap_2 (fun l => name (heap l))).
Qed.

Lemma Graph_init_lookup_witness :
  exists g, @Graph_init Demo.acs_world (Some [1; 2; 3; 4; 5]%positive) = Ok g /\
            top g = Some 1%positive /\
            @Graph_getitem g (Some "top") = Ok 1%positive /\ len g <= 5.
Proof.
  assert (exists g, @Graph_init Demo.acs_world (Some [1; 2; 3; 4; 5]%positive) = Ok g)
    as [g Hg] by (eexists; reflexivity).
  exists g.
  destruct (@Graph_init_lookup Demo.acs_world _ g Hg) as (Ht & _ & Hlen & Htop).
  split; [exact Hg|]. split; [exact Ht|]. split; [|exact Hlen].
  apply (Htop) with (t := 1%positive); [|exact Ht].
  vm_compute. repeat constructor; rewrite ?elem_of_cons, ?elem_of_nil;
    intros H; repeat destruct H as [H|H]; try discriminate H; try exact H.
Defined.

(** ** The depth of recurse *)

Section Depth.
Context `{World} (junk excl : list string).







End Depth.








(** ** What recurse records *)

Section Recorded.
Context `{World} (junk excl : list string).

Lemma edge_path_cons l e es :
  es <> [] ->
  edge_path l (e :: es) <->
  e ∈ dict_values (edges (heap l)) /\ exists l', destination e = Some l' /\ edge_path l' es.
Proof. intros Hes. destruct es; [done|]. reflexivity. Qed.

Lemma recorded_step l sf s :
  recorded junk excl (Some l) sf s <->
  exists e, e ∈ dict_values (edges (heap l)) /\ (kwd e ∉ excl) /\
            (((kwd e ∉ junk) /\ s = sf +:+ "," +:+ kwd e) \/
             recorded junk excl (destination e) (sf +:+ "," +:+ kwd e) s).
Proof.
  split.
  - intros (es & e & Hp & Hx & Hj & ->). destruct es as [|e0 es].
    + exists e. destruct Hp as [He _]. split; [done|].
      split; [apply Hx; by left|]. left. split; [done|].
      change (kwd <$> [] ++ [e]) with [kwd e].
      rewrite render_cons. change (render []) with EmptyString. by rewrite sapp_nil_r.
    + exists e0. change ((e0 :: es) ++ [e]) with (e0 :: (es ++ [e])) in *.
      apply edge_path_cons in Hp as (He0 & l' & Hd & Hp); [|by destruct es].
      split; [done|]. split; [apply Hx; by left|]. right. rewrite Hd.
      exists es, e. split; [done|]. split; [intros e' He'; apply Hx; by right|].
      split; [done|]. rewrite fmap_cons, render_cons. by rewrite !sapp_assoc.
  - intros (e0 & He0 & Hx0 & [[Hj ->]|Hr]).
    + exists [], e0. split; [by split|]. split.
      * by intros e' ->%list_elem_of_singleton.
      * split; [done|]. change (kwd <$> [] ++ [e0]) with [kwd e0].
        rewrite render_cons. change (render []) with EmptyString. by rewrite sapp_nil_r.
    + destruct (destination e0) as [l'|] eqn:Hd; [|done].
      destruct Hr as (es & e & Hp & Hx & Hj & ->). exists (e0 :: es), e.
      change ((e0 :: es) ++ [e]) with (e0 :: (es ++ [e])). split.
      * apply edge_path_cons; [by destruct es|]. split; [done|]. by exists l'.
      * split; [intros e' [->|He']%elem_of_cons; [done|by apply Hx]|].
        split; [done|]. rewrite fmap_cons, render_cons. by rewrite !sapp_assoc.
Qed.

Lemma recurse_recorded depth : forall node so_far obs out,
  recurse (Some junk) (Some excl) depth node so_far obs = Ok out ->
  exists new, out = obs ++ new /\
              forall s, s ∈ new <-> recorded junk excl node (default EmptyString so_far) s.
Proof.
  induction depth as [|d IH]; intros node so_far obs out; [done|]. simpl.
  destruct node as [l|].
  2: { intros [= <-]. exists []. split; [by rewrite app_nil_r|].
    intros s. split; [by intros ?%elem_of_nil|done]. }
  intros (es0 & [-> _]%Node_iter_Ok & Hrun)%bind_Ok. revert Hrun.
  set (sf := default EmptyString so_far).
  enough (Hloop : forall L obs out,
    for_each
      (fun obsmodes edge =>
         if bool_decide (kwd edge ∈ excl) then Ok obsmodes
         else recurse (Some junk) (Some excl) d (destination edge)
                (Some (sf +:+ "," +:+ kwd edge))
                (if bool_decide (kwd edge ∈ junk) then obsmodes
                 else obsmodes ++ [sf +:+ "," +:+ kwd edge]))
      L obs = Ok out ->
    exists new, out = obs ++ new /\
      forall s, s ∈ new <->
        exists e, e ∈ L /\ (kwd e ∉ excl) /\
                  (((kwd e ∉ junk) /\ s = sf +:+ "," +:+ kwd e) \/
                   recorded junk excl (destination e) (sf +:+ "," +:+ kwd e) s)).
  { intros (new & -> & Hnew)%Hloop. exists new. split; [done|].
    intros s. by rewrite Hnew, recorded_step. }
  clear obs out. intros L. induction L as [|e L IHL]; intros obs out.
  - intros [= <-]. exists []. split; [by rewrite app_nil_r|].
    intros s. split; [by intros ?%elem_of_nil|by intros (e & ?%elem_of_nil & _)].
  - simpl for_each. destruct (bool_decide (kwd e ∈ excl)) eqn:Hx.
    + apply bool_decide_eq_true in Hx. simpl.
      intros (new & -> & Hnew)%IHL. exists new. split; [done|].
      intros s. rewrite Hnew. split.
      * intros (e' & He' & Hrest). exists e'. split; [by right|done].
      * intros (e' & [->|He']%elem_of_cons & Hx' & Hrest); [done|]. by exists e'.
    + apply bool_decide_eq_false in Hx.
      intros (mid & Hmid & (new2 & -> & Hnew2)%IHL)%bind_Ok.
      apply IH in Hmid as (new1 & -> & Hnew1). simpl in Hnew1.
      destruct (bool_decide (kwd e ∈ junk)) eqn:Hj.
      * apply bool_decide_eq_true in Hj. exists (new1 ++ new2).
        split; [by rewrite app_assoc|]. intros s.
        rewrite elem_of_app, Hnew1, Hnew2. split.
        -- intros [Hr|(e' & He' & Hrest)].
           ++ exists e. split; [by left|]. split; [done|]. by right.
           ++ exists e'. split; [by right|done].
        -- intros (e' & [->|He']%elem_of_cons & Hx' & Hrest).
           ++ left. by destruct Hrest as [[? _]|?].
           ++ right. by exists e'.
      * apply bool_decide_eq_false in Hj. exists ((sf +:+ "," +:+ kwd e) :: new1 ++ new2).
        split; [by rewrite <- !app_assoc|]. intros s.
        rewrite elem_of_cons, elem_of_app, Hnew1, Hnew2. split.
        -- intros [->|[Hr|(e' & He' & Hrest)]].
           ++ exists e. split; [by left|]. split; [done|]. by left.
           ++ exists e. split; [by left|]. split; [done|]. by right.
           ++ exists e'. split; [by right|done].
        -- intros (e' & [->|He']%elem_of_cons & Hx' & Hrest).
           ++ destruct Hrest as [[_ ->]|?]; [by left|right; by left].
           ++ right. right. by exists e'.
Qed.

End Recorded.

(** X8. When [recurse] returns, it has appended to [self.obsmodes]
    exactly the strings of the paths below the node: a string is among
    the new entries if and only if it is [so_far] followed by the
    keywords, each after a comma, of the edges of a path that starts at
    the node, takes no excluded edge and ends with an edge whose keyword
    is not junk.  What was recorded before stays in front. *)
Theorem recurse_records_paths `{World} (junk excl : list string) (depth : nat)
    (l : ref) (so_far : option string) (obs out : list string) :
  recurse (Some junk) (Some excl) depth (Some l) so_far obs = Ok out ->
  exists new, out = obs ++ new /\
    forall s, s ∈ new <->
      exists es e, edge_path l (es ++ [e]) /\
                   (forall e', e' ∈ es ++ [e] -> kwd e' ∉ excl) /\
                   (kwd e ∉ junk) /\
                   s = default EmptyString so_far +:+ render (kwd <$> es ++ [e]).
Proof.
  intros Hr.
  destruct (recurse_recorded junk excl depth (Some l) so_far obs out Hr)
    as (new & Hout & Hnew).
  exists new. split; [exact Hout|].
  intros s. rewrite Hnew. unfold recorded. reflexivity.
Qed.

Lemma recurse_records_paths_witness :
  exists new,
    @recurse Demo.acs_world (Some ["default"]) (Some ["wfc2"]) 5 (Some 4%positive)
             (Some ",x") ["y"] = Ok (["y"] ++ new) /\
    forall s, s ∈ new <->
      exists es e, @edge_path Demo.acs_world 4%positive (es ++ [e]) /\
                   (forall e', e' ∈ es ++ [e] -> kwd e' ∉ ["wfc2"]) /\
                   (kwd e ∉ ["default"]) /\
                   s = ",x" +:+ render (kwd <$> es ++ [e]).
Proof.
  assert (exists out,
    @recurse Demo.acs_world (Some ["default"]) (Some ["wfc2"]) 5 (Some 4%positive)
             (Some ",x") ["y"] = Ok out) as [out Hout] by (eexists; vm_compute; reflexivity).
  destruct (@recurse_records_paths Demo.acs_world _ _ _ _ _ _ _ Hout) as (new & -> & Hnew).
  exists new. split; [exact Hout|exact Hnew].
Defined.

(** ** The obsmodes that get_obsmodes accepts *)

Lemma sapp_inv_tail s s' t : s +:+ t = s' +:+ t -> s = s'.
Proof.
  revert s'. induction s as [|c s IH]; intros [|c' s'].
  - done.
  - rewrite sapp_nil_l. intros Ht. apply (f_equal String.length) in Ht.
    rewrite sapp_length in Ht. simpl in Ht. lia.
  - rewrite sapp_nil_l. intros Ht. apply (f_equal String.length) in Ht.
    rewrite sapp_length in Ht. simpl in Ht. lia.
  - rewrite !sapp_cons. intros [= -> Ht]. by rewrite (IH _ Ht).
Qed.

Lemma rules_dict_dom k : k ∈ dom rules_dict <-> k ∈ rules_list.*1.
Proof. unfold rules_dict. by rewrite dom_list_to_map_L, elem_of_list_to_set. Qed.

Lemma rules_dict_star o : o +:+ ",*" ∈ rules_list.*1 -> o ∈ ["wfpc2"; "stis"].
Proof.
  intros Ho.
  assert (Hall : forallb (fun k => negb (Py.endswith ",*" k)
                            || bool_decide (k = "wfpc2" +:+ ",*")
                            || bool_decide (k = "stis" +:+ ",*")) rules_list.*1 = true)
    by (vm_compute; reflexivity).
  rewrite forallb_forall in Hall. apply list_elem_of_In, Hall in Ho.
  rewrite endswith_app in Ho. simpl negb in Ho. rewrite orb_false_l in Ho.
  apply orb_true_iff in Ho as [Ho|Ho]; apply bool_decide_eq_true, sapp_inv_tail in Ho;
    subst o; [apply list_elem_of_here|apply list_elem_of_further, list_elem_of_here].
Qed.

Lemma get_obsmodes_in_no_rules `{World} rules g obsmode prefix :
  obsmode ∉ dom rules -> obsmode +:+ ",*" ∉ dom rules ->
  get_obsmodes_in rules g obsmode prefix
  = u ← unicode obsmode; Raise (ObsmodeError ("Unsupported obsmode string: " +:+ u)).
Proof.
  intros H1 H2. unfold get_obsmodes_in, obsrules_key.
  rewrite (bool_decide_eq_false_2 _ H1), (bool_decide_eq_false_2 _ H2).
  by destruct (unicode obsmode).
Qed.



(** X9. [get_obsmodes] accepts eighteen obsmodes and no other: for every
    obsmode that is neither a key of [rules_dict] nor [wfpc2] or [stis],
    it raises [ObsmodeError] with the text [Unsupported obsmode string: ]
    followed by the obsmode, whatever the graph holds, or the decoding
    error of [unicode] when the obsmode is not ASCII. *)
Theorem get_obsmodes_unsupported `{World} (g : Graph) (obsmode : string) (prefix : bool) :
  obsmode ∉ supported_obsmodes ->
  get_obsmodes g obsmode prefix
  = u ← unicode obsmode; Raise (ObsmodeError ("Unsupported obsmode string: " +:+ u)).
Proof.
  intros Hno. apply get_obsmodes_in_no_rules.
  - rewrite rules_dict_dom. intros Hk. apply Hno, elem_of_app. by left.
  - rewrite rules_dict_dom. intros Hk%rules_dict_star. apply Hno, elem_of_app. by right.
Qed.

Lemma get_obsmodes_unsupported_witness :
  @get_obsmodes Demo.acs_world Demo.acs_graph "acs" false
  = Raise (ObsmodeError "Unsupported obsmode string: acs").
Proof.
  apply (@get_obsmodes_unsupported Demo.acs_world Demo.acs_graph "acs" false).
  intros Hin. apply list_elem_of_In in Hin. vm_compute in Hin.
  repeat (destruct Hin as [Hin|Hin]; [discriminate Hin|]). exact Hin.
Defined.





Lemma obsrules_key_supported o key :
  obsrules_key rules_dict o = Ok key -> o ∈ supported_obsmodes.
Proof.
  unfold obsrules_key.
  destruct (bool_decide (o ∈ dom rules_dict)) eqn:H1.
  { apply bool_decide_eq_true, rules_dict_dom in H1. intros _. apply elem_of_app. by left. }
  destruct (bool_decide (o +:+ ",*" ∈ dom rules_dict)) eqn:H2.
  { apply bool_decide_eq_true, rules_dict_dom, rules_dict_star in H2.
    intros _. apply elem_of_app. by right. }
  unfold unicode. by destruct (Py.is_ascii o).
Qed.

(** No accepted obsmode ends in a NUL character. *)
Lemma supported_no_nul o : o ∈ supported_obsmodes -> Np.rstrip_nul o = o.
Proof.
  intros Ho.
  assert (Hall : forallb (fun o => bool_decide (Np.rstrip_nul o = o)) supported_obsmodes
                 = true) by (vm_compute; reflexivity).
  rewrite forallb_forall in Hall. apply list_elem_of_In, Hall in Ho.
  by apply bool_decide_eq_true in Ho.
Qed.

(** X11. The [prefix] argument of [get_obsmodes] only changes the last
    step: with [prefix=True] the call raises what it raises without, and
    otherwise returns the obsmode itself followed by every string of the
    result without prefix, each with the obsmode put in front. *)
Theorem get_obsmodes_prefix `{World} (g : Graph) (obsmode : string) :
  get_obsmodes g obsmode true
  = match get_obsmodes g obsmode false with
    | Ok obs => Ok (obsmode :: ((fun s => obsmode +:+ s) <$> obs))
    | Raise x => Raise x
    end.
Proof.
  unfold get_obsmodes.
  destruct (obsrules_key rules_dict obsmode) as [key|x] eqn:Hkey.
  2: { unfold get_obsmodes_in. rewrite Hkey. reflexivity. }
  pose proof (supported_no_nul obsmode (obsrules_key_supported _ _ Hkey)) as Hnul.
  revert Hkey. generalize rules_dict. intros rules Hkey.
  unfold get_obsmodes_in. rewrite Hkey. simpl.
  destruct (merged junk rules key) as [jks|]; [simpl|done].
  destruct (merged exclude rules key) as [excl|]; [simpl|done].
  destruct (check_excluded excl obsmode); [simpl|done].
  destruct (traverse g obsmode true) as [p|]; [simpl|done].
  destruct (Graph_getitem g (offset p)) as [l|]; [simpl|done].
  destruct (recurse (Some jks) (Some excl) recursion_limit (Some l) None []) as [obs|];
    [simpl|done].
  by apply process_prefix.
Qed.

(** ** The errors of the parameter loop *)

Lemma split_two c s :
  Py.has_char c s = true -> exists a b rest, Py.split c s = a :: b :: rest.
Proof.
  induction s as [|x s IH]; simpl; [done|].
  destruct (decide (x = c)) as [->|Hne].
  - intros _. pose proof (split_nonempty c s) as Hs.
    destruct (Py.split c s) as [|b rest]; [done|]. by exists EmptyString, b, rest.
  - intros (a & b & rest & ->)%IH. by exists (String x a), b, rest.
Qed.

Lemma param_loop_outcome (T : gset string) todo : forall done st,
  NoDup (done ++ todo) ->
  (forall p, p ∈ todo -> p ∈ T /\ Py.has_char "#" p = true) ->
  params_inv T done st ->
  ((forall p, p ∈ todo -> exists b v, Py.split "#" p = [b; v]) /\
   exists st', for_each param_step todo st = Ok st') \/
  ((exists p a b c r, p ∈ todo /\ Py.split "#" p = a :: b :: c :: r) /\
   for_each param_step todo st = Raise (ValueError "too many values to unpack")).
Proof.
  induction todo as [|p todo IH]; intros done st Hnd Htodo Hinv.
  - left. split; [by intros p ?%elem_of_nil|]. by exists st.
  - destruct (Htodo p) as [HpT Hh]; [by left|].
    assert (Hpd : p ∉ done).
    { apply NoDup_app in Hnd as (_ & Hd & _). intros Hp. apply (Hd p Hp). by left. }
    destruct (split_two _ _ Hh) as (a & b & rest & Hs). destruct rest as [|c r].
    + destruct (param_step_inv T done p a b st) as (st1 & Hst1 & Hinv1); try done.
      destruct (IH (done ++ [p]) st1) as [[Hgood [st' Hrun]]|[Hbad Hrun]].
      { by rewrite <- app_assoc. }
      { intros p' Hp'. apply Htodo. by right. }
      { done. }
      * left. split.
        -- intros p' [->|Hp']%elem_of_cons; [by exists a, b|by apply Hgood].
        -- exists st'. simpl. by rewrite Hst1.
      * right. split.
        -- destruct Hbad as (p' & a' & b' & c' & r' & Hp' & Hs').
           exists p', a', b', c', r'. split; [by right|done].
        -- simpl. by rewrite Hst1.
    + right. split; [exists p, a, b, c, r; split; [by left|done]|].
      simpl. unfold param_step. destruct st as [S ps]. destruct Hinv as (HS & _).
      rewrite decide_True by (apply HS; by left). by rewrite Hs.
Qed.

Lemma keywords_outcome `{World} obsmode :
  ((forall p, p ∈ Py.split "," obsmode -> Py.has_char "#" p = true ->
              exists b v, Py.split "#" p = [b; v]) /\
   exists st, keywords obsmode = Ok st) \/
  ((exists p a b c r, p ∈ Py.split "," obsmode /\ Py.split "#" p = a :: b :: c :: r) /\
   keywords obsmode = Raise (ValueError "too many values to unpack")).
Proof.
  unfold keywords.
  set (T := list_to_set (Py.split "," obsmode) : gset string).
  set (plist := filter (fun k => Py.has_char "#" k = true)
                       (set_iter (Py.split "," obsmode))).
  assert (HT : forall p, p ∈ T <-> p ∈ Py.split "," obsmode)
    by (intros p; apply elem_of_list_to_set).
  assert (Hpl : forall p, p ∈ plist <-> Py.has_char "#" p = true /\ p ∈ T).
  { intros p. unfold plist.
    rewrite list_elem_of_filter, (set_iter_perm (Py.split "," obsmode)), elem_of_elements.
    done. }
  destruct (param_loop_outcome T plist [] (T, ∅)) as [[Hgood Hrun]|[Hbad Hrun]].
  { simpl. apply NoDup_filter. rewrite (set_iter_perm (Py.split "," obsmode)).
    apply NoDup_elements. }
  { intros p [Hh Hp]%Hpl. done. }
  { apply params_inv_init. }
  - left. split; [|done]. intros p Hp Hh. apply Hgood, Hpl. split; [done|by apply HT].
  - right. split; [|done]. destruct Hbad as (p & a & b & c & r & [_ Hp]%Hpl & Hs).
    exists p, a, b, c, r. split; [by apply HT|done].
Qed.

(** X12. The parameter loop of [traverse] raises nothing but the
    [ValueError] of the unpacking [k,v = p.split('#')], and raises it
    exactly when some token of the obsmode holds more than one [#]; then
    [traverse] raises it too, whatever the graph, before it looks at
    [top]. *)
Theorem traverse_unpack_error `{World} (g : Graph) (obsmode : string) (partial : bool) :
  (forall x, keywords obsmode = Raise x <->
     x = ValueError "too many values to unpack" /\
     exists p a b c r, p ∈ Py.split "," obsmode /\ Py.split "#" p = a :: b :: c :: r) /\
  ((exists p a b c r, p ∈ Py.split "," obsmode /\ Py.split "#" p = a :: b :: c :: r) ->
   traverse g obsmode partial = Raise (ValueError "too many values to unpack")).
Proof.
  destruct (keywords_outcome obsmode) as [[Hgood [st Hrun]]|[Hbad Hrun]].
  - assert (Hno : ~ exists p a b c r,
              p ∈ Py.split "," obsmode /\ Py.split "#" p = a :: b :: c :: r).
    { intros (p & a & b & c & r & Hp & Hs).
      destruct (Hgood p Hp) as (b' & v' & Hs'); [|congruence].
      destruct (Py.has_char "#" p) eqn:Hh; [done|].
      rewrite (split_no_sep _ _ Hh) in Hs. discriminate Hs. }
    split; [|by intros ?]. intros x. rewrite Hrun. split; [done|by intros [_ ?]].
  - split.
    + intros x. rewrite Hrun. split; [by intros [= <-]|by intros [-> _]].
    + intros _. unfold traverse. by rewrite Hrun.
Qed.

Lemma traverse_unpack_error_witness :
  @traverse Demo.acs_world Demo.acs_graph "acs,x#1#2" false
  = Raise (ValueError "too many values to unpack").
Proof.
  apply (@traverse_unpack_error Demo.acs_world Demo.acs_graph "acs,x#1#2" false).
  exists "x#1#2", "x", "1", "2", []. split; [in_list|reflexivity].
Defined.

(** ** Path.append *)

Section Append.
Context `{World}.

Lemma floats_Ok pv cn : forall acc r,
  for_each
    (fun acc pname =>
       if Py.contains pv pname then v ← float (last_field pname); Ok (acc ++ [v])
       else Ok acc) cn acc = Ok r ->
  r = acc ++ (last_field <$> filter (fun n => Py.contains pv n = true) cn) /\
  forall n, n ∈ cn -> Py.contains pv n = true -> float_ok (last_field n) = true.
Proof.
  induction cn as [|n cn IH]; intros acc r; simpl.
  - intros [= <-]. split; [by rewrite app_nil_r|]. by intros n ?%elem_of_nil.
  - destruct (Py.contains pv n) eqn:Hc.
    + destruct (float (last_field n)) as [v|y] eqn:Hfl; simpl; [|done].
      unfold float in Hfl. destruct (float_ok (last_field n)) eqn:Hf; [|done].
      injection Hfl as <-. intros [-> Hall]%IH. rewrite filter_cons_True by done. split.
      * by rewrite fmap_cons, <- app_assoc.
      * intros n' [->|Hn']%elem_of_cons; [done|by apply Hall].
    + simpl. intros [-> Hall]%IH. rewrite filter_cons_False by (by rewrite Hc). split; [done|].
      intros n' [->|Hn']%elem_of_cons; [by rewrite Hc|by apply Hall].
Qed.

Lemma floats_Raise pv cn : forall acc x,
  for_each
    (fun acc pname =>
       if Py.contains pv pname then v ← float (last_field pname); Ok (acc ++ [v])
       else Ok acc) cn acc = Raise x ->
  exists n, n ∈ cn /\ Py.contains pv n = true /\ float_ok (last_field n) = false /\
            x = ValueError ("could not convert string to float: " +:+ last_field n).
Proof.
  induction cn as [|n cn IH]; intros acc x; simpl; [done|].
  destruct (Py.contains pv n) eqn:Hc.
  - destruct (float (last_field n)) as [v|y] eqn:Hfl; simpl.
    + intros (n' & Hn' & Hrest)%IH. exists n'. split; [by right|done].
    + unfold float in Hfl. destruct (float_ok (last_field n)) eqn:Hf; [done|].
      injection Hfl as <-. intros [= <-]. exists n. split; [by left|done].
  - simpl. intros (n' & Hn' & Hrest)%IH. exists n'. split; [by right|done].
Qed.

Lemma Path_append_Ok p e p' :
  Path_append p e = Ok p' ->
  (params p' = params p /\
   forall pv, pvar e = Some pv -> pv ∉ dom (params p) \/ pv ∈ [EmptyString; " "]) \/
  (exists pv cn,
     pvar e = Some pv /\ pv ∈ dom (params p) /\ (pv ∉ [EmptyString; " "]) /\
     fits_cnames (filename e) = Ok cn /\
     (forall n, n ∈ cn -> Py.contains pv n = true -> float_ok (last_field n) = true) /\
     params p'
     = <[pv := PFloats (last_field <$> filter (fun n => Py.contains pv n = true) cn)]>
         (params p)).
Proof.
  unfold Path_append. destruct (pvar e) as [pv|]; [|intros [= <-]; by left].
  simpl params.
  destruct (bool_decide (pv ∈ dom (params p))) eqn:Hd; simpl.
  2: { intros [= <-]. left. split; [done|]. intros pv' [= <-]. left.
       by apply bool_decide_eq_false in Hd. }
  destruct (bool_decide (pv ∉ [EmptyString; " "])) eqn:Hb; simpl.
  2: { intros [= <-]. left. split; [done|]. intros pv' [= <-]. right.
       apply bool_decide_eq_false in Hb. by apply dec_stable. }
  apply bool_decide_eq_true in Hd, Hb.
  intros (cn & Hcn & (pvs & [-> Hall]%floats_Ok & [= <-])%bind_Ok)%bind_Ok.
  right. exists pv, cn. done.
Qed.

Lemma Path_append_Raise p e x :
  Path_append p e = Raise x ->
  exists pv, pvar e = Some pv /\ pv ∈ dom (params p) /\
    (fits_cnames (filename e) = Raise x \/
     exists s, float_ok s = false /\
               x = ValueError ("could not convert string to float: " +:+ s)).
Proof.
  unfold Path_append. destruct (pvar e) as [pv|]; [|done]. simpl params.
  destruct (bool_decide (pv ∈ dom (params p))) eqn:Hd; simpl; [|done].
  apply bool_decide_eq_true in Hd.
  destruct (bool_decide (pv ∉ [EmptyString; " "])); simpl; [|done].
  destruct (fits_cnames (filename e)) as [cn|y] eqn:Hcn; simpl.
  - destruct (for_each _ cn []) as [pvs|y] eqn:Hfl; simpl; [done|].
    intros [= <-]. apply floats_Raise in Hfl as (n & _ & _ & Hf & ->).
    exists pv. split; [done|]. split; [done|]. right. by exists (last_field n).
  - intros [= <-]. exists pv. split; [done|]. split; [done|]. by left.
Qed.

End Append.

(** X13. [Path.append] adds the edge at the end of the path and leaves
    name and offset alone.  It never adds a key to the parameters: they
    stay as they are, unless the edge's [pvar] is one of their keys other
    than the empty string and the blank; then the component file is read,
    every column name that holds [pvar] has a last [#] field that [float]
    accepts, and the entry of [pvar] becomes the list of these fields, in
    the order of the columns. *)
Theorem Path_append_params `{World} (p : Path) (e : Edge) (p' : Path) :
  Path_append p e = Ok p' ->
  edgelist p' = edgelist p ++ [e] /\ path_name p' = path_name p /\
  offset p' = offset p /\ dom (params p') = dom (params p) /\
  ((params p' = params p /\
    forall pv, pvar e = Some pv -> pv ∉ dom (params p) \/ pv ∈ [EmptyString; " "]) \/
   (exists pv cn,
      pvar e = Some pv /\ pv ∈ dom (params p) /\ (pv ∉ [EmptyString; " "]) /\
      fits_cnames (filename e) = Ok cn /\
      (forall n, n ∈ cn -> Py.contains pv n = true -> float_ok (last_field n) = true) /\
      params p'
      = <[pv := PFloats (last_field <$> filter (fun n => Py.contains pv n = true) cn)]>
          (params p))).
Proof.
  intros Happ. destruct (Path_append_fields p e p' Happ) as (He & Ho & _ & Hn).
  split; [done|]. split; [done|]. split; [done|].
  pose proof (Path_append_Ok p e p' Happ) as Hcase. split; [|exact Hcase].
  destruct Hcase as [[-> _]|(pv & cn & _ & Hd & _ & _ & _ & ->)]; [done|].
  rewrite dom_insert_L. apply elem_of_dom in Hd as [v Hv].
  apply set_eq. intros k. rewrite elem_of_union, elem_of_singleton. split; [|tauto].
  intros [->|Hk]; [|done]. apply elem_of_dom. by exists v.
Qed.

Lemma Path_append_params_witness :
  let p := mkPath "acs,mjd#50000" [] {["MJD#" := PStr "50000"]} None [] in
  let e := mkEdge "mjd#" (Some "acs_mjd") None (Some "acs_mjd.fits") (Some "MJD#") None in
  exists p', @Path_append Demo.fits_world p e = Ok p' /\
             edgelist p' = [e] /\ dom (params p') = dom (params p) /\
             params p' !! "MJD#" = Some (PFloats ["50000"; "51000"]).
Proof.
  intros p e.
  assert (exists p', @Path_append Demo.fits_world p e = Ok p') as [p' Hp']
    by (eexists; vm_compute; reflexivity).
  exists p'.
  destruct (@Path_append_params Demo.fits_world p e p' Hp') as (He & _ & _ & Hd & Hcase).
  split; [exact Hp'|]. split; [exact He|]. split; [exact Hd|].
  destruct Hcase as [[_ Hno]|(pv & cn & Hpv & _ & _ & Hcn & _ & ->)].
  - destruct (Hno "MJD#" eq_refl) as [Hn|Hn].
    + destruct Hn. apply elem_of_dom. eexists. apply lookup_singleton_eq.
    + apply list_elem_of_In in Hn. vm_compute in Hn.
      destruct Hn as [Hn|[Hn|[]]]; discriminate Hn.
  - injection Hpv as <-. change (filename e) with (Some "acs_mjd.fits") in Hcn.
    injection Hcn as <-. rewrite lookup_insert_eq. reflexivity.
Defined.

(** ** The walk of traverse, once more *)

Lemma elem_of_dict_values `{World} (m : gmap string Edge) e :
  e ∈ dict_values m <-> exists k, m !! k = Some e.
Proof.
  rewrite (dict_values_perm m), list_elem_of_fmap. split.
  - intros ([k e'] & -> & Hke%elem_of_map_to_list). by exists k.
  - intros [k Hk]. exists (k, e). split; [done|]. by apply elem_of_map_to_list.
Qed.

Lemma select_edge_Ok n kwdset partial count e :
  select_edge n kwdset partial count = Ok e ->
  e = sentinel \/ exists k, edges n !! k = Some e.
Proof.
  unfold select_edge. destruct (decide (1 < size _)%nat); [done|].
  destruct (decide (size _ = 1%nat)).
  - destruct (elements _) as [|k ?]; [done|]. unfold edges_getitem.
    destruct (edges n !! k) eqn:Hk; [|done]. intros [= <-]. right. by exists k.
  - destruct (edges n !! "default") eqn:Hd; [|intros [= <-]; by left].
    destruct (negb partial || _); intros [= <-]; [right; by exists "default"|by left].
Qed.

Lemma route_snoc `{World} es : forall l0 cur e',
  route l0 es ->
  Some cur = match last es with Some e => destination e | None => Some l0 end ->
  e' = sentinel \/ e' ∈ dict_values (edges (heap cur)) ->
  route l0 (es ++ [e']).
Proof.
  induction es as [|e es IH]; intros l0 cur e' Hr Hcur He'.
  - simpl in Hcur. injection Hcur as ->. by split.
  - destruct Hr as [He Hr]. change ((e :: es) ++ [e']) with (e :: (es ++ [e'])).
    split; [done|]. destruct es as [|e1 es].
    + simpl in Hcur. exists cur. split; [by symmetry|]. by split.
    + destruct Hr as (l' & Hd & Hr). change ((e1 :: es) ++ [e']) with (e1 :: (es ++ [e'])).
      exists l'. split; [done|]. apply (IH l' cur e'); [done| |done].
      rewrite last_cons_cons in Hcur.
      destruct (last (e1 :: es)) eqn:Hlast; [done|]. by apply last_None in Hlast.
Qed.

Lemma route_inner `{World} es : forall l0 es1 e es2,
  route l0 es -> es = es1 ++ e :: es2 -> es2 <> [] -> is_Some (destination e).
Proof.
  induction es as [|e0 es IH]; intros l0 es1 e es2 Hr Heq Hne; [by destruct es1|].
  destruct Hr as [_ Hr]. destruct es1 as [|e1 es1]; simpl in Heq; injection Heq as -> ->.
  - destruct es2; [done|]. destruct Hr as (l' & -> & _). by eexists.
  - destruct (es1 ++ e :: es2) as [|e2 es'] eqn:Hes; [by destruct es1|].
    destruct Hr as (l' & _ & Hr). by apply (IH l' es1 e es2).
Qed.

Section WalkMore.
Context `{W : World}.
Variables (g : Graph) (kwdset : gset string) (partial : bool).

Lemma walk_step_Break st l :
  walk_step kwdset partial st l = Ok Break ->
  exists k, select_edge (heap l) kwdset partial (kwdcount st) = Raise (KeyError k).
Proof.
  unfold walk_step. destruct (select_edge _ _ _ _) as [edge|[]]; try discriminate.
  - by destruct (Path_append _ _).
  - intros _. by eexists.
Qed.

Lemma walk_step_Raise st l x :
  walk_step kwdset partial st l = Raise x ->
  x = ambiguous \/
  exists edge, select_edge (heap l) kwdset partial (kwdcount st) = Ok edge /\
               Path_append (ans st) edge = Raise x.
Proof.
  unfold walk_step. destruct (select_edge _ _ _ _) as [edge|y] eqn:Hsel.
  - destruct (Path_append _ _) as [|y] eqn:Happ; simpl; [done|].
    intros [= <-]. right. by exists edge.
  - apply select_edge_raises in Hsel as [->|[k ->]]; [|done]. intros [= <-]. by left.
Qed.

Lemma walk_exit st p :
  walk g kwdset partial st = Ok p ->
  exists st', rtc (round g kwdset partial) st st' /\ p = ans st' /\
              walk_done g kwdset partial st'.
Proof.
  revert p. funelim (walk g kwdset partial st); intros p; try clear Heqcall.
  1-3: intros [= <-]; exists st; split; [apply rtc_refl|]; split; [done|].
  1-3: unfold walk_done; first
    [ by left
    | right; left;
      match goal with Hf : (_ <=? _) = false |- _ =>
        exact (proj1 (Z.leb_gt _ _) Hf) end
    | right; right;
      match goal with Hb : walk_step _ _ _ ?l' = Ok Break |- _ =>
        destruct (walk_step_Break _ _ Hb) as [k Hk]; by exists l', k end ].
  - match goal with IH : forall p, _ -> _ |- _ =>
      intros (st'' & Hr & -> & Hd)%IH end.
    exists st''. split; [|done].
    eapply rtc_l; [|exact Hr]. exists l. pose proof (proj1 (Z.leb_le _ _) Hc). done.
  - discriminate.
Qed.

Lemma walk_raise st x :
  walk g kwdset partial st = Raise x ->
  exists st' l, rtc (round g kwdset partial) st st' /\ innode st' = Some l /\
                walk_step kwdset partial st' l = Raise x.
Proof.
  revert x. funelim (walk g kwdset partial st); intros x; try clear Heqcall.
  1-3: discriminate.
  - match goal with IH : forall x, _ -> _ |- _ =>
      intros (st'' & l'' & Hr & Hrest)%IH end.
    exists st'', l''. split; [|done].
    eapply rtc_l; [|exact Hr]. exists l. pose proof (proj1 (Z.leb_le _ _) Hc). done.
  - intros [= <-]. exists st, l. split; [apply rtc_refl|]. done.
Qed.

Lemma round_shape l0 obsmode ps st st' :
  round g kwdset partial st st' ->
  walk_shape l0 obsmode ps st -> walk_shape l0 obsmode ps st'.
Proof.
  intros (l & Hl & Hc & (edge & ans1 & Hsel & Happ & ->)%walk_step_Next)
         (Hr & Hcur & Hn & Hd & Hps).
  pose proof (Path_append_fields _ _ _ Happ) as (He & _ & _ & Hn1).
  pose proof (Path_append_Ok _ _ _ Happ) as Hpar.
  assert (Hfld : forall q : Path,
    (q = ans1 \/ exists v, q = set_offset ans1 v) ->
    edgelist q = edgelist (ans st) ++ [edge] /\ path_name q = path_name (ans st) /\
    params q = params ans1).
  { intros q [->|[v ->]]; simpl; by rewrite He, Hn1. }
  set (q := if counts kwdset (edge_list st) edge then
              match destination edge with
              | Some d => set_offset ans1 (name (heap d))
              | None => ans1
              end
            else ans1).
  destruct (Hfld q) as (Hqe & Hqn & Hqp).
  { unfold q. destruct (counts _ _ _); [|by left].
    destruct (destination edge); [right; by eexists|by left]. }
  unfold walk_shape. simpl. fold q. rewrite Hqe, Hqn, Hqp, last_snoc.
  split; [|split; [done|split; [done|]]].
  - apply (route_snoc _ l0 l edge); [done|by rewrite <- Hcur|].
    apply select_edge_Ok in Hsel as [->|Hk]; [by left|right].
    by apply elem_of_dict_values.
  - destruct Hpar as [[-> _]|(pv & cn & _ & Hpv & _ & _ & _ & ->)]; [done|]. split.
    + rewrite dom_insert_L, <- Hd. apply elem_of_dom in Hpv as [v Hv].
      apply set_eq. intros k. rewrite elem_of_union, elem_of_singleton. split; [|tauto].
      intros [->|Hk]; [|done]. apply elem_of_dom. by exists v.
    + intros K. destruct (decide (K = pv)) as [->|Hne].
      * right. rewrite lookup_insert_eq. by eexists.
      * rewrite lookup_insert_ne by done. apply Hps.
Qed.

Lemma rounds_shape l0 obsmode ps st st' :
  rtc (round g kwdset partial) st st' ->
  walk_shape l0 obsmode ps st -> walk_shape l0 obsmode ps st'.
Proof. induction 1; eauto using round_shape. Qed.

Lemma walk_shape_init l0 obsmode ps :
  walk_shape l0 obsmode ps (mkWalk (Some l0) 0 0 [] (Path_init obsmode ps)).
Proof. unfold walk_shape. simpl. split; [done|]. repeat split; try done. by left. Qed.

End WalkMore.

(** What a successful [traverse] went through: the keyword set and the
    parameters, the node it started at, and the state in which the loop
    came to its end. *)
Lemma traverse_walk `{World} g obsmode partial p :
  traverse g obsmode partial = Ok p ->
  exists kwdset ps t l0 st,
    keywords obsmode = Ok (kwdset, ps) /\ top g = Some t /\
    nodes g !! name (heap t) = Some l0 /\ p = ans st /\
    walk_inv g kwdset st /\ walk_shape l0 obsmode ps st /\
    walk_done g kwdset partial st.
Proof.
  intros (kwdset & ps & t & l & Hk & Ht & Hl & (st & Hr & -> & Hd)%walk_exit)%traverse_Ok.
  exists kwdset, ps, t, l, st. repeat (split; [done|]). split; [|split; [|done]].
  - eapply rounds_inv; [exact Hr|]. apply walk_inv_init.
  - eapply rounds_shape; [exact Hr|]. apply walk_shape_init.
Qed.

(** ** The outcomes of traverse *)

Lemma split_has_char c sep s p :
  p ∈ Py.split sep s -> Py.has_char c p = true -> Py.has_char c s = true.
Proof.
  revert p. induction s as [|a s IH]; intros p; simpl.
  - by intros ->%list_elem_of_singleton.
  - destruct (decide (a = sep)) as [->|Hne].
    + intros [->|Hp]%elem_of_cons Hc; [done|].
      rewrite (IH p Hp Hc). by destruct (decide (sep = c)).
    + pose proof (split_nonempty sep s) as Hs.
      destruct (Py.split sep s) as [|h t]; [done|].
      intros [->|Hp]%elem_of_cons Hc.
      * simpl in Hc. destruct (decide (a = c)); [done|]. apply (IH h); [by left|done].
      * destruct (decide (a = c)); [done|]. apply (IH p); [by right|done].
Qed.

Lemma filter_none {A} (P : A -> Prop) `{forall x, Decision (P x)} (l : list A) :
  (forall x, x ∈ l -> ~ P x) -> filter P l = [].
Proof.
  induction l as [|x l IH]; intros Hl; [done|].
  rewrite filter_cons_False by (apply Hl; by left). apply IH. intros y Hy. apply Hl. by right.
Qed.

Lemma keywords_plain `{World} obsmode :
  Py.has_char "#" obsmode = false ->
  keywords obsmode = Ok (list_to_set (Py.split "," obsmode), ∅).
Proof.
  intros Hh. unfold keywords. rewrite filter_none; [done|].
  intros p Hp. rewrite (set_iter_perm _), elem_of_elements, elem_of_list_to_set in Hp.
  intros Hc. by rewrite (split_has_char _ _ _ _ Hp Hc) in Hh.
Qed.

(** X14. What [traverse] can raise: the [ValueError] of the parameter
    loop; the [AttributeError] of a graph without [top]; the [KeyError]
    of [self[self.top.name]] when no node is stored under the name of
    [top]; the ambiguity error of [select_edge]; an error of opening or
    reading a component file; and the [ValueError] of [float] for a text
    that it does not accept.  The [KeyError] of [select_edge] is never
    among them, since the loop catches it. *)
Theorem traverse_raises `{World} (g : Graph) (obsmode : string) (partial : bool) (x : exn) :
  traverse g obsmode partial = Raise x ->
  x = ValueError "too many values to unpack" \/
  (top g = None /\ x = AttributeError "top") \/
  (exists t, top g = Some t /\ nodes g !! name (heap t) = None /\
             x = KeyError (Some (name (heap t)))) \/
  x = ambiguous \/
  (exists f, fits_cnames f = Raise x) \/
  (exists s, float_ok s = false /\
             x = ValueError ("could not convert string to float: " +:+ s)).
Proof.
  intros Hx. unfold traverse in Hx.
  destruct (keywords obsmode) as [[kwdset ps]|y] eqn:Hk; simpl in Hx.
  2: { injection Hx as <-. left.
       destruct (keywords_outcome obsmode) as [[_ [st Hst]]|[_ Hr]]; congruence. }
  right. destruct (top g) as [t|] eqn:Ht; simpl in Hx; [|injection Hx as <-; by left].
  right. unfold Graph_getitem in Hx.
  destruct (nodes g !! name (heap t)) as [l0|] eqn:Hl; simpl in Hx.
  2: { injection Hx as <-. left. by exists t. }
  right. apply walk_raise in Hx as (st & l & _ & _ & [->|(edge & _ & Happ)]%walk_step_Raise).
  - by left.
  - right. apply Path_append_Raise in Happ as (pv & _ & _ & [Hf|Hs]).
    + left. by eexists.
    + by right.
Qed.

Lemma traverse_raises_witness :
  let x := AttributeError "top" in
  x = ValueError "too many values to unpack" \/
  (top (mkGraph ∅ None) = None /\ x = AttributeError "top") \/
  (exists t, top (mkGraph ∅ None) = Some t /\
             nodes (mkGraph ∅ None) !! name (@heap Demo.acs_world t) = None /\
             x = KeyError (Some (name (@heap Demo.acs_world t)))) \/
  x = ambiguous \/
  (exists f, @fits_cnames Demo.acs_world f = Raise x) \/
  (exists s, @float_ok Demo.acs_world s = false /\
             x = ValueError ("could not convert string to float: " +:+ s)).
Proof.
  intros x. apply (@traverse_raises Demo.acs_world (mkGraph ∅ None) "acs" false x).
  reflexivity.
Defined.

(** X15. For an obsmode without [#], [traverse] has no parameters and so
    never looks into a component file: it returns a path named after the
    obsmode whose parameters are empty, or raises one of the three errors
    that come from the graph alone. *)
Theorem traverse_plain `{World} (g : Graph) (obsmode : string) (partial : bool) :
  Py.has_char "#" obsmode = false ->
  (forall p, traverse g obsmode partial = Ok p ->
             params p = ∅ /\ path_name p = obsmode) /\
  (forall x, traverse g obsmode partial = Raise x ->
             (top g = None /\ x = AttributeError "top") \/
             (exists t, top g = Some t /\ nodes g !! name (heap t) = None /\
                        x = KeyError (Some (name (heap t)))) \/
             x = ambiguous).
Proof.
  intros Hk%keywords_plain. split.
  - intros p (kwdset & ps & t & l0 & st & Hk' & _ & _ & -> & _ & Hsh & _)%traverse_walk.
    rewrite Hk in Hk'. injection Hk' as <- <-.
    destruct Hsh as (_ & _ & Hn & Hd & _). split; [|done].
    apply (dom_empty_inv_L (D:=gset string)). by rewrite Hd, dom_empty_L.
  - intros x Hx. unfold traverse in Hx. rewrite Hk in Hx. simpl in Hx.
    destruct (top g) as [t|] eqn:Ht; simpl in Hx; [|injection Hx as <-; by left].
    right. unfold Graph_getitem in Hx.
    destruct (nodes g !! name (heap t)) as [l0|] eqn:Hl; simpl in Hx.
    2: { injection Hx as <-. left. by exists t. }
    right. apply walk_raise in Hx as (st & l & Hr & _ & [->|(edge & _ & Happ)]%walk_step_Raise);
      [done|].
    apply Path_append_Raise in Happ as (pv & _ & Hpv & _).
    pose proof (rounds_shape g _ partial l0 obsmode ∅ _ st Hr
                  (walk_shape_init l0 obsmode ∅)) as (_ & _ & _ & Hd & _).
    rewrite Hd, dom_empty_L in Hpv. by apply not_elem_of_empty in Hpv.
Qed.

Lemma traverse_plain_witness :
  exists p, @traverse Demo.acs_world Demo.acs_graph "acs,wfc1" true = Ok p /\
            params p = ∅ /\ path_name p = "acs,wfc1".
Proof.
  assert (exists p, @traverse Demo.acs_world Demo.acs_graph "acs,wfc1" true = Ok p)
    as [p Hp] by (eexists; vm_compute; reflexivity).
  exists p. split; [exact Hp|].
  apply (proj1 (@traverse_plain Demo.acs_world Demo.acs_graph "acs,wfc1" true eq_refl) p Hp).
Defined.

(** X16. The parameters of the path that [traverse] returns have the
    keys of the parameters it was created with, those of the parameter
    loop: [Path.append] adds none and removes none.  Each value is the
    text of the loop or a list read from a component file. *)
Theorem traverse_params_keys `{World} (g : Graph) (obsmode : string) (partial : bool)
    (p : Path) :
  traverse g obsmode partial = Ok p ->
  exists kwdset ps,
    keywords obsmode = Ok (kwdset, ps) /\ path_name p = obsmode /\
    dom (params p) = dom ps /\
    forall K, params p !! K = ps !! K \/ exists vs, params p !! K = Some (PFloats vs).
Proof.
  intros (kwdset & ps & t & l0 & st & Hk & _ & _ & -> & _ & Hsh & _)%traverse_walk.
  destruct Hsh as (_ & _ & Hn & Hd & Hps). by exists kwdset, ps.
Qed.

Lemma traverse_params_keys_witness :
  exists p kwdset ps,
    @traverse Demo.acs_world Demo.acs_graph "acs,mjd#5" true = Ok p /\
    @keywords Demo.acs_world "acs,mjd#5" = Ok (kwdset, ps) /\
    dom (params p) = dom ps.
Proof.
  assert (exists p, @traverse Demo.acs_world Demo.acs_graph "acs,mjd#5" true = Ok p)
    as [p Hp] by (eexists; vm_compute; reflexivity).
  destruct (@traverse_params_keys Demo.acs_world _ _ _ _ Hp) as (kwdset & ps & Hk & _ & Hd & _).
  exists p, kwdset, ps. split; [exact Hp|]. split; [exact Hk|exact Hd].
Defined.

(** X17. On a store of nodes built by [Node(name)] and [add_edge], the
    path that [traverse] returns is not empty and is a route through the
    graph from the node stored under the name of [top]: every edge is an
    edge of the node that the edge before leads to, or the sentinel of
    [select_edge], and every edge but the last leads to a node.  The
    walk ends at an edge that leads nowhere, or with [len(self) + 1]
    edges. *)
Theorem traverse_route `{World} (g : Graph) (obsmode : string) (partial : bool) (p : Path) :
  (forall l, Node_built (heap l)) ->
  traverse g obsmode partial = Ok p ->
  exists t l0 es e,
    top g = Some t /\ nodes g !! name (heap t) = Some l0 /\
    edgelist p = es ++ [e] /\ route l0 (edgelist p) /\
    (forall e', e' ∈ es -> is_Some (destination e')) /\
    (destination e = None \/ Z.of_nat (length (edgelist p)) = len g + 1).
Proof.
  intros Hb (kwdset & ps & t & l0 & st & _ & Ht & Hl & -> & Hinv & Hsh & Hd)%traverse_walk.
  destruct Hsh as (Hr & Hcur & _). destruct Hinv as [_ Icn Ibd _ _ _].
  assert (Hne : edgelist (ans st) <> []).
  { intros Hnil. rewrite Hnil in Hcur. simpl in Hcur. rewrite Hnil in Icn. simpl in Icn.
    destruct Hd as [Hd|[Hd|(l & k & Hin & Hsel)]].
    - congruence.
    - unfold len in Hd. lia.
    - destruct (built_select_edge (heap l) kwdset partial (kwdcount st) (Hb l))
        as [Ha|(e & He & _)]; rewrite Hsel in *; [unfold ambiguous in Ha|]; discriminate. }
  destruct (exists_last Hne) as (es & e & Hes).
  exists t, l0, es, e. repeat (split; [done|]). split.
  - intros e' [es1 [es2 ->]]%list_elem_of_split.
    apply (route_inner _ l0 es1 e' (es2 ++ [e]) Hr); [by rewrite Hes, <- app_assoc|].
    by destruct es2.
  - rewrite Hes, last_snoc in Hcur.
    destruct Hd as [Hd|[Hd|(l & k & Hin & Hsel)]].
    + left. congruence.
    + right. lia.
    + destruct (built_select_edge (heap l) kwdset partial (kwdcount st) (Hb l))
        as [Ha|(e1 & He1 & _)]; rewrite Hsel in *; [unfold ambiguous in Ha|]; discriminate.
Qed.

Lemma world_of_built objs :
  (forall l n, objs !! l = Some n -> Node_built n) ->
  forall l, Node_built (@heap (Demo.world_of objs) l).
Proof.
  intros Hobjs l. simpl. destruct (objs !! l) as [n|] eqn:Hl; simpl.
  - by apply (Hobjs l).
  - apply built_init.
Qed.

Lemma acs_world_built l : Node_built (@heap Demo.acs_world l).
Proof.
  apply world_of_built. intros l' n Hn%elem_of_list_to_map_2.
  repeat (apply elem_of_cons in Hn as [[= _ ->]|Hn]; [apply node_of_built|]).
  by apply elem_of_nil in Hn.
Qed.

Lemma traverse_route_witness :
  exists p t l0 es e,
    @traverse Demo.acs_world Demo.acs_graph "acs,wfc1" true = Ok p /\
    top Demo.acs_graph = Some t /\
    edgelist p = es ++ [e] /\ @route Demo.acs_world l0 (edgelist p) /\
    (destination e = None \/ Z.of_nat (length (edgelist p)) = len Demo.acs_graph + 1).
Proof.
  assert (exists p, @traverse Demo.acs_world Demo.acs_graph "acs,wfc1" true = Ok p)
    as [p Hp] by (eexists; vm_compute; reflexivity).
  destruct (@traverse_route Demo.acs_world _ _ _ _ acs_world_built Hp)
    as (t & l0 & es & e & Ht & _ & Hes & Hr & _ & Hend).
  exists p, t, l0, es, e. split; [exact Hp|]. split; [exact Ht|].
  split; [exact Hes|]. split; [exact Hr|exact Hend].
Defined.

(** ** The offset of a path *)

Lemma offset_assignments_elem `{World} kwdset es : forall seen nm,
  nm ∈ offset_assignments kwdset seen es ->
  exists e d, e ∈ es /\ kwd e ∈ kwdset /\ kwd e <> "default" /\
              destination e = Some d /\ nm = name (heap d).
Proof.
  induction es as [|e es IH]; intros seen nm; simpl; [by intros ?%elem_of_nil|].
  intros [Hnm|Hnm]%elem_of_app.
  - unfold offset_of, counts in Hnm.
    destruct (bool_decide (kwd e ∈ kwdset)) eqn:H1; [|by apply elem_of_nil in Hnm].
    destruct (bool_decide (kwd e ∉ seen)); [|by apply elem_of_nil in Hnm].
    destruct (bool_decide (kwd e ≠ "default")) eqn:H3; [|by apply elem_of_nil in Hnm].
    simpl in Hnm. destruct (destination e) as [d|] eqn:Hd; [|by apply elem_of_nil in Hnm].
    apply list_elem_of_singleton in Hnm as ->.
    apply bool_decide_eq_true in H1, H3. exists e, d. split; [by left|done].
  - apply IH in Hnm as (e' & d & He' & Hrest). exists e', d. split; [by right|done].
Qed.

Lemma offset_assignments_nil `{World} kwdset es : forall seen,
  (forall es1 e es2, es = es1 ++ e :: es2 -> es2 <> [] -> is_Some (destination e)) ->
  offset_assignments kwdset seen es = [] ->
  forall e, e ∈ es -> kwd e ∈ kwdset -> kwd e <> "default" -> kwd e ∉ seen ->
            destination e = None.
Proof.
  induction es as [|e0 es IH]; intros seen Hin Hnil e He Hk Hd Hs;
    [by apply elem_of_nil in He|].
  simpl in Hnil. apply app_eq_nil in Hnil as [H0 Hnil].
  assert (Hfirst : kwd e0 ∈ kwdset -> kwd e0 <> "default" -> kwd e0 ∉ seen ->
                   destination e0 = None).
  { intros H1 H2 H3. unfold offset_of, counts in H0.
    rewrite !bool_decide_eq_true_2 in H0 by done. simpl in H0.
    by destruct (destination e0). }
  apply elem_of_cons in He as [->|He]; [by apply Hfirst|].
  destruct (decide (kwd e = kwd e0)) as [Heq|Hne].
  - rewrite Heq in Hk, Hd, Hs. specialize (Hfirst Hk Hd Hs).
    destruct (Hin [] e0 es eq_refl) as [d Hd0]; [by intros ->; apply elem_of_nil in He|].
    congruence.
  - apply (IH (seen ++ [kwd e0])); try done.
    + intros es1 e' es2 -> Hes2. by apply (Hin (e0 :: es1) e' es2).
    + intros [?|?%list_elem_of_singleton]%elem_of_app; done.
Qed.

Lemma offset_assignments_no_dest `{World} kwdset es : forall seen,
  (forall e, e ∈ es -> kwd e ∈ kwdset -> kwd e <> "default" -> destination e = None) ->
  offset_assignments kwdset seen es = [].
Proof.
  induction es as [|e es IH]; intros seen Hes; [done|]. simpl.
  rewrite IH by (intros e' He'; apply Hes; by right). rewrite app_nil_r.
  unfold offset_of, counts.
  destruct (bool_decide (kwd e ∈ kwdset)) eqn:H1; [|done].
  destruct (bool_decide (kwd e ∉ seen)); [|done].
  destruct (bool_decide (kwd e ≠ "default")) eqn:H3; [|done]. simpl.
  apply bool_decide_eq_true in H1, H3. by rewrite (Hes e) by (done || by left).
Qed.

(** X18. The offset of the path that [traverse] returns is [None] exactly
    when no edge of the path that leads to a node bears a keyword of the
    keyword set other than [default]; and when it is not [None], it is
    the name of the node to which such an edge of the path leads. *)
Theorem traverse_offset_none_iff `{World} (g : Graph) (obsmode : string) (partial : bool)
    (p : Path) :
  traverse g obsmode partial = Ok p ->
  exists kwdset ps,
    keywords obsmode = Ok (kwdset, ps) /\
    (offset p = None <->
     forall e, e ∈ edgelist p -> kwd e ∈ kwdset -> kwd e <> "default" ->
               destination e = None) /\
    (forall nm, offset p = Some nm ->
       exists e d, e ∈ edgelist p /\ kwd e ∈ kwdset /\ kwd e <> "default" /\
                   destination e = Some d /\ nm = name (heap d)).
Proof.
  intros (kwdset & ps & t & l0 & st & Hk & _ & _ & -> & Hinv & Hsh & _)%traverse_walk.
  exists kwdset, ps. split; [done|].
  destruct Hinv as [_ _ _ Iwr Iof _]. destruct Hsh as (Hr & _).
  rewrite Iof, Iwr. split; [split|].
  - intros Hnil%last_None e He Hke Hd.
    apply (offset_assignments_nil kwdset (edgelist (ans st)) []); try done.
    + intros es1 e' es2 Heq Hne. by apply (route_inner _ l0 es1 e' es2 Hr).
    + by intros ?%elem_of_nil.
  - intros Hall. by rewrite offset_assignments_no_dest.
  - intros nm Hnm%last_Some_elem_of. by apply offset_assignments_elem in Hnm.
Qed.

Lemma traverse_offset_none_iff_witness :
  exists p kwdset ps,
    @traverse Demo.acs_world Demo.acs_graph "acs,wfc1" true = Ok p /\
    @keywords Demo.acs_world "acs,wfc1" = Ok (kwdset, ps) /\
    (offset p = None <->
     forall e, e ∈ edgelist p -> kwd e ∈ kwdset -> kwd e <> "default" ->
               destination e = None).
Proof.
  assert (exists p, @traverse Demo.acs_world Demo.acs_graph "acs,wfc1" true = Ok p)
    as [p Hp] by (eexists; vm_compute; reflexivity).
  destruct (@traverse_offset_none_iff Demo.acs_world _ _ _ _ Hp) as (kwdset & ps & Hk & Hiff & _).
  exists p, kwdset, ps. split; [exact Hp|]. split; [exact Hk|exact Hiff].
Defined.

(** ** What select_edge and process do not look at *)

(** X19. The arguments [partial] and [count] of [select_edge] matter only
    when no keyword matches and the node has a default edge: when some
    keyword of the node is in the keyword set, or the node has no edge
    for [default], or [partial] is off in both calls, two calls that
    differ in them have the same outcome. *)
Theorem select_edge_partial (n : Node) (kwdset : gset string) (partial partial' : bool)
    (count count' : Z) :
  edgeset n ∩ kwdset <> ∅ \/ edges n !! "default" = None \/
  (partial = false /\ partial' = false) ->
  select_edge n kwdset partial count = select_edge n kwdset partial' count'.
Proof.
  intros Hcase. unfold select_edge.
  destruct (decide (1 < size (edgeset n ∩ kwdset))%nat) as [|H1]; [done|].
  destruct (decide (size (edgeset n ∩ kwdset) = 1%nat)) as [|H2]; [done|].
  destruct Hcase as [Hne|[->|[-> ->]]]; [|done|by destruct (edges n !! "default")].
  destruct Hne. apply leibniz_equiv, size_empty_iff. lia.
Qed.

Lemma select_edge_partial_witness :
  let n := Demo.node_of "A" [Demo.edge_to "wfc1" None; Demo.edge_to "default" None] in
  select_edge n {["wfc1"]} true 5 = select_edge n {["wfc1"]} false 0.
Proof.
  intros n. apply (select_edge_partial n {["wfc1"]} true false 5 0). left.
  intros Hempty. assert (Hin : "wfc1" ∈ edgeset n ∩ ({["wfc1"]} : gset string)).
  { apply elem_of_intersection. split; [|by apply elem_of_singleton].
    rewrite (Node_built_edgeset n (node_of_built _ _)). apply elem_of_dom.
    eexists. vm_compute. reflexivity. }
  rewrite Hempty in Hin. by apply not_elem_of_empty in Hin.
Defined.


(** ** The order of the keywords in an obsmode *)

Section Order.
Context `{W : World}.
Variables (g : Graph) (kwdset : gset string) (partial : bool).

Lemma walk_next st st' :
  round g kwdset partial st st' -> walk g kwdset partial st = walk g kwdset partial st'.
Proof.
  intros (l' & Hl & Hc' & Hst).
  funelim (walk g kwdset partial st); try clear Heqcall.
  all: try congruence.
  - match goal with Hf : (_ <=? _) = false |- _ =>
      pose proof (proj1 (Z.leb_gt _ _) Hf) end. lia.
Qed.

Lemma walk_stop st : walk_done g kwdset partial st -> walk g kwdset partial st = Ok (ans st).
Proof.
  intros [Hn|[Hc'|(l' & k & Hl & Hsel)]].
  - by apply walk_no_node.
  - by apply walk_beyond.
  - funelim (walk g kwdset partial st); try clear Heqcall; try reflexivity.
    all: match goal with Hs : walk_step _ _ _ ?l0 = _ |- _ =>
           assert (l' = l0) as Heq by congruence;
           pose proof Hs as Hs'; unfold walk_step in Hs';
           rewrite <- Heq, Hsel in Hs'; discriminate Hs' end.
Qed.

Lemma walk_fail st l x :
  innode st = Some l -> count st <= len g -> walk_step kwdset partial st l = Raise x ->
  walk g kwdset partial st = Raise x.
Proof.
  intros Hl Hc' Hst.
  funelim (walk g kwdset partial st); try clear Heqcall.
  all: try congruence.
  - match goal with Hf : (_ <=? _) = false |- _ =>
      pose proof (proj1 (Z.leb_gt _ _) Hf) end. lia.
Qed.

Lemma Path_append_same p1 p2 e :
  same_walk (Ok p1) (Ok p2) -> same_walk (Path_append p1 e) (Path_append p2 e).
Proof.
  intros (He & Hp & Ho & Hw). unfold Path_append. simpl params.
  rewrite He, Hp, Ho, Hw. destruct (pvar e) as [pv|]; [|done].
  destruct (_ && _); [|done].
  destruct (fits_cnames (filename e)) as [cn|]; simpl; [|done].
  by destruct (for_each _ cn []).
Qed.

Lemma walk_step_same st1 st2 l :
  same_state st1 st2 ->
  match walk_step kwdset partial st1 l, walk_step kwdset partial st2 l with
  | Ok Break, Ok Break => True
  | Ok (Next st1'), Ok (Next st2') => same_state st1' st2'
  | Raise x1, Raise x2 => x1 = x2
  | _, _ => False
  end.
Proof.
  intros (Hn & Hc & Hk & Hel & Hans). unfold walk_step. rewrite Hk, Hel, Hc.
  destruct (select_edge _ _ _ _) as [edge|[]]; try done.
  pose proof (Path_append_same _ _ edge Hans) as Happ.
  destruct (Path_append (ans st1) edge) as [q1|], (Path_append (ans st2) edge) as [q2|];
    simpl in *; try done.
  unfold same_state. simpl. repeat (split; [done|]).
  destruct Happ as (He & Hp & Ho & Hw).
  destruct (counts _ _ _); [|done]. destruct (destination edge); [|done].
  simpl. by rewrite He, Hp, Hw.
Qed.

Lemma walk_same st1 : forall st2,
  same_state st1 st2 ->
  same_walk (walk g kwdset partial st1) (walk g kwdset partial st2).
Proof.
  funelim (walk g kwdset partial st1); intros st2 Hsame; try clear Heqcall.
  all: pose proof Hsame as (Hn & Hc' & Hk & Hel & Hans).
  - rewrite walk_no_node by congruence. exact Hans.
  - match goal with Hf : (_ <=? _) = false |- _ =>
      pose proof (proj1 (Z.leb_gt _ _) Hf) end.
    rewrite walk_beyond by lia. exact Hans.
  - pose proof (walk_step_same st st2 l Hsame) as Hst.
    match goal with Hb : walk_step _ _ st l = Ok Break |- _ => rewrite Hb in Hst end.
    destruct (walk_step kwdset partial st2 l) as [[|]|] eqn:Hst2; try done.
    rewrite (walk_stop st2); [exact Hans|].
    right. right. apply walk_step_Break in Hst2 as [k Hk2]. exists l, k.
    split; [congruence|done].
  - pose proof (walk_step_same st st2 l Hsame) as Hst. rewrite Hs in Hst.
    destruct (walk_step kwdset partial st2 l) as [[|st2']|] eqn:Hst2; try done.
    rewrite (walk_next st2 st2').
    + match goal with IH : forall st2, _ -> _ |- _ => by apply IH end.
    + exists l. pose proof (proj1 (Z.leb_le _ _) Hc). split; [congruence|]. split; [lia|done].
  - pose proof (walk_step_same st st2 l Hsame) as Hst.
    match goal with Hb : walk_step _ _ st l = Raise _ |- _ => rewrite Hb in Hst end.
    destruct (walk_step kwdset partial st2 l) as [[|]|y] eqn:Hst2; try done. subst y.
    rewrite (walk_fail st2 l e); [done|congruence| |done].
    pose proof (proj1 (Z.leb_le _ _) Hc). lia.
Qed.

End Order.

(** X21. For obsmodes without [#], [traverse] looks at the obsmode only
    through the set of its comma-separated tokens: two such obsmodes
    with the same tokens, in whatever order and however often repeated,
    raise the same error or give paths with the same edges, parameters
    and offset; the paths differ in their name only.  (With [#] the
    order in which the set of tokens is iterated comes in, which may
    follow the order of the tokens.) *)
Theorem traverse_token_set `{World} (g : Graph) (obsmode1 obsmode2 : string)
    (partial : bool) :
  Py.has_char "#" obsmode1 = false -> Py.has_char "#" obsmode2 = false ->
  (list_to_set (Py.split "," obsmode1) : gset string) = list_to_set (Py.split "," obsmode2) ->
  same_walk (traverse g obsmode1 partial) (traverse g obsmode2 partial).
Proof.
  intros H1 H2 Hset. unfold traverse. rewrite !keywords_plain by done. rewrite Hset. simpl.
  destruct (top g) as [t|]; simpl; [|done].
  destruct (nodes g !! name (heap t)) as [l|]; simpl; [|done].
  apply walk_same. unfold same_state. simpl. done.
Qed.

Lemma traverse_token_set_witness :
  same_walk (@traverse Demo.acs_world Demo.acs_graph "acs,wfc1" true)
            (@traverse Demo.acs_world Demo.acs_graph "wfc1,acs,acs" true).
Proof.
  apply (@traverse_token_set Demo.acs_world Demo.acs_graph "acs,wfc1" "wfc1,acs,acs" true);
    [reflexivity|reflexivity|].
  apply set_eq. intros k. rewrite !elem_of_list_to_set.
  change (Py.split "," "acs,wfc1") with ["acs"; "wfc1"].
  change (Py.split "," "wfc1,acs,acs") with ["wfc1"; "acs"; "acs"].
  rewrite !elem_of_cons, !elem_of_nil. tauto.
Defined.

(** ** get_obsmodes from end to end *)




